(** * Yako chatbot server: the message-handling pipeline of [server.js]

    A shallow embedding of the request handler of [POST /api/chat] and of
    the helpers it calls ([getSmartFallback], [retrieveRelevantContext]),
    of [GET /api/history], of [GET /api/check-api-key] and of the choice
    of the address printed at start, followed by the properties of the
    pipeline and of these.

    Modelling conventions.

    - A JavaScript string is a [string]: the sequence of its characters.
      The character operations ([toLowerCase], [trim], the classes [\d],
      [\s] and [.] of the regular expressions) are written for the ASCII
      range, where they coincide with JavaScript; the reply constants are
      kept as the bytes of the source text.
    - A JavaScript Number that holds an integer is a [Z] together with the
      rounding of IEEE-754 binary64 ([round64]); [Infinity], [-Infinity]
      and [NaN] are constructors of their own.
    - Everything the handler reads from outside the program (clock, random
      source, the provider's answer, the TF-IDF measure of the [natural]
      package) is a field of the record [Runtime].
    - The session store is a finite map from session identifiers to lists
      of turns; in [chat] a request runs to completion before the next one
      starts.  The module [Interleaved] has the arrays behind the map, for
      requests that wait for the provider while others are handled. *)

From Stdlib Require Import ZArith QArith Qround Lqa List Ascii String Lia Bool.
From Stdlib Require Import Permutation Sorted.
From stdpp Require Import gmap strings list.

Set Default Proof Using "Type".

(* ===================================================================== *)
(** * Characters and strings *)
(* ===================================================================== *)

Module Text.

(** The characters of a string, first to last. *)
Definition chars (s : string) : list ascii := list_ascii_of_string s.
Definition text (l : list ascii) : string := string_of_list_ascii l.

Definition code (c : ascii) : N := N_of_ascii c.

(** [\d] *)
Definition isDigit (c : ascii) : bool := (48 <=? code c)%N && (code c <=? 57)%N.

(** [\s], and the characters [String.prototype.trim] strips: TAB, LF, VT,
    FF, CR and SPACE. *)
Definition isSpace (c : ascii) : bool :=
  ((9 <=? code c)%N && (code c <=? 13)%N) || (code c =? 32)%N.

(** The line terminators, which [.] refuses. *)
Definition isLineTerminator (c : ascii) : bool :=
  (code c =? 10)%N || (code c =? 13)%N.

Definition isUpper (c : ascii) : bool := (65 <=? code c)%N && (code c <=? 90)%N.

Definition lowerChar (c : ascii) : ascii :=
  if isUpper c then ascii_of_N (code c + 32) else c.

(** [s.toLowerCase()] *)
Definition toLowerCase (s : list ascii) : list ascii := map lowerChar s.

Fixpoint startsWith (s p : list ascii) : bool :=
  match p, s with
  | [], _ => true
  | a :: p', b :: s' => Ascii.eqb a b && startsWith s' p'
  | _ :: _, [] => false
  end.

(** [s.includes(p)] *)
Fixpoint includes (s p : list ascii) : bool :=
  startsWith s p ||
  match s with
  | [] => false
  | _ :: s' => includes s' p
  end.

Fixpoint trimStart (s : list ascii) : list ascii :=
  match s with
  | c :: s' => if isSpace c then trimStart s' else s
  | [] => []
  end.

Definition trimEnd (s : list ascii) : list ascii := rev (trimStart (rev s)).

(** [s.trim()] *)
Definition trim (s : list ascii) : list ascii := trimEnd (trimStart s).

End Text.

(* ===================================================================== *)
(** * Regular expressions, with the backtracking order of JavaScript *)
(* ===================================================================== *)

Module Regex.
Import Text.

Inductive cclass := Digit | Space | Dot.

Definition inClass (k : cclass) (c : ascii) : bool :=
  match k with
  | Digit => isDigit c
  | Space => isSpace c
  | Dot => negb (isLineTerminator c)
  end.

Inductive regex :=
| Eps
| Chr (c : ascii)
| Cls (k : cclass)
| Cat (r1 r2 : regex)
| Alt (r1 r2 : regex)
| Star (r : regex)
| Grp (i : nat) (r : regex).

(** [r+], [r?] (both greedy), a literal word, a sequence. *)
Definition Plus (r : regex) : regex := Cat r (Star r).
Definition Opt (r : regex) : regex := Alt r Eps.
Definition lit (w : string) : regex := fold_right (fun c r => Cat (Chr c) r) Eps (chars w).
Definition Seq (rs : list regex) : regex := fold_right Cat Eps rs.

(** What the groups captured, and the rest of the subject still to read. *)
Definition captures := list (nat * list ascii).
Definition outcome : Type := captures * list ascii.

Definition withCaptures (c : captures) (o : outcome) : outcome := (c ++ o.1, o.2).

(** The repetitions of a star whose body matches as [body] says: one more
    iteration first (an iteration that reads nothing is refused, as in
    ECMAScript), then none.  [k] bounds the iterations. *)
Fixpoint starLoop (body : list ascii -> list outcome) (k : nat) (s : list ascii)
    : list outcome :=
  match k with
  | O => [([], s)]
  | S k' =>
      flat_map (fun o =>
                  if (length o.2 <? length s)%nat
                  then map (withCaptures o.1) (starLoop body k' o.2)
                  else [])
               (body s)
      ++ [([], s)]
  end.

(** Every way [r] matches a prefix of [s], in the order in which a
    backtracking matcher tries them: the left alternative first, the
    longest repetition first.  [n] bounds the iterations of a star; the
    length of the subject is enough. *)
Fixpoint run (r : regex) (n : nat) (s : list ascii) : list outcome :=
  match r with
  | Eps => [([], s)]
  | Chr c =>
      match s with
      | x :: t => if Ascii.eqb x c then [([], t)] else []
      | [] => []
      end
  | Cls k =>
      match s with
      | x :: t => if inClass k x then [([], t)] else []
      | [] => []
      end
  | Cat r1 r2 =>
      flat_map (fun o => map (withCaptures o.1) (run r2 n o.2)) (run r1 n s)
  | Alt r1 r2 => run r1 n s ++ run r2 n s
  | Star r1 => starLoop (run r1 n) n s
  | Grp i r1 =>
      map (fun o => ((i, take (length s - length o.2) s) :: o.1, o.2)) (run r1 n s)
  end.

(** [re.exec(s)] for a pattern without anchors: the first start position
    at which the pattern matches, and there the first outcome. *)
Fixpoint exec (r : regex) (s : list ascii) : option captures :=
  match run r (length s) s with
  | o :: _ => Some o.1
  | [] =>
      match s with
      | [] => None
      | _ :: s' => exec r s'
      end
  end.

(** [re.test(s)] for a pattern without anchors. *)
Definition test (r : regex) (s : list ascii) : bool :=
  match exec r s with Some _ => true | None => false end.

(** [re.test(s)] for a pattern of the form [^r$]. *)
Definition testWhole (r : regex) (s : list ascii) : bool :=
  existsb (fun o => match o.2 with [] => true | _ => false end) (run r (length s) s).

(** [numbers[i]] of a successful match. *)
Fixpoint group (i : nat) (c : captures) : option (list ascii) :=
  match c with
  | [] => None
  | (j, w) :: c' => if (i =? j)%nat then Some w else group i c'
  end.

(** The words a pattern matches, each with what the groups capture on
    the way. *)
Inductive Matches : regex -> list ascii -> captures -> Prop :=
| MEps : Matches Eps [] []
| MChr c : Matches (Chr c) [c] []
| MCls k c : inClass k c = true -> Matches (Cls k) [c] []
| MCat r1 r2 w1 w2 c1 c2 :
    Matches r1 w1 c1 -> Matches r2 w2 c2 -> Matches (Cat r1 r2) (w1 ++ w2) (c1 ++ c2)
| MAltL r1 r2 w c : Matches r1 w c -> Matches (Alt r1 r2) w c
| MAltR r1 r2 w c : Matches r2 w c -> Matches (Alt r1 r2) w c
| MStarNil r : Matches (Star r) [] []
| MStarApp r w1 w2 c1 c2 :
    Matches r w1 c1 -> Matches (Star r) w2 c2 -> Matches (Star r) (w1 ++ w2) (c1 ++ c2)
| MGrp i r w c : Matches r w c -> Matches (Grp i r) w ((i, w) :: c).

Definition Accepts (r : regex) (w : list ascii) : Prop := exists c, Matches r w c.

(** Whether a pattern can match a word all of whose characters satisfy
    [allowed]. *)
Definition allAscii : list ascii := map (fun n => ascii_of_nat n) (List.seq 0 256).

Fixpoint feasible (allowed : ascii -> bool) (r : regex) : bool :=
  match r with
  | Eps => true
  | Chr c => allowed c
  | Cls k => existsb (fun c => inClass k c && allowed c) allAscii
  | Cat r1 r2 => feasible allowed r1 && feasible allowed r2
  | Alt r1 r2 => feasible allowed r1 || feasible allowed r2
  | Star _ => true
  | Grp _ r1 => feasible allowed r1
  end.

(** The characters the words of a pattern are made of. *)
Fixpoint alphabet (r : regex) (c : ascii) : bool :=
  match r with
  | Eps => false
  | Chr c' => Ascii.eqb c c'
  | Cls k => inClass k c
  | Cat r1 r2 | Alt r1 r2 => alphabet r1 c || alphabet r2 c
  | Star r1 | Grp _ r1 => alphabet r1 c
  end.

(** The pattern without its groups. *)
Fixpoint erase (r : regex) : regex :=
  match r with
  | Eps | Chr _ | Cls _ => r
  | Cat r1 r2 => Cat (erase r1) (erase r2)
  | Alt r1 r2 => Alt (erase r1) (erase r2)
  | Star r1 => Star (erase r1)
  | Grp _ r1 => erase r1
  end.

End Regex.

(* ===================================================================== *)
(** * Numbers: what [parseInt] and the four operators compute *)
(* ===================================================================== *)

Module Number.
Import Text.
Local Open Scope Z_scope.

(** The Numbers the arithmetic rules handle: an integer-valued binary64
    value, an infinity, or NaN. *)
Inductive number :=
| NaN
| Inf (negative : bool)
| Int (z : Z).

(** The result of [/]: a Number as above or, when the divisor does not
    divide the dividend, the binary64 value nearest to the fraction
    [n / d]. *)
Inductive quotient :=
| Whole (x : number)
| Nearest (n d : Z).

(** Rounding of an integer to binary64, to nearest, ties to even: the 53
    leading bits are kept; from [2^1024] on the result is an infinity. *)
Definition round64 (z : Z) : number :=
  let a := Z.abs z in
  let e := Z.max 0 (Z.log2 a - 52) in
  let q := a / 2 ^ e in
  let r := a mod 2 ^ e in
  let q' :=
    if 2 * r <? 2 ^ e then q
    else if 2 ^ e <? 2 * r then q + 1
    else if Z.even q then q else q + 1 in
  let v := q' * 2 ^ e in
  if 2 ^ 1024 <=? v then Inf (z <? 0) else Int (Z.sgn z * v).

Definition digitValue (c : ascii) : Z := Z.of_N (code c) - 48.

(** The integer a run of decimal digits denotes. *)
Definition decimalValue (ds : list ascii) : Z :=
  fold_left (fun acc c => 10 * acc + digitValue c) ds 0.

Fixpoint leadingDigits (s : list ascii) : list ascii :=
  match s with
  | c :: s' => if isDigit c then c :: leadingDigits s' else []
  | [] => []
  end.

(** [parseInt(s)] for a string that starts neither with white space nor
    with a sign (the rules pass runs of digits): the leading digits are
    read in base ten, and no digit at all gives NaN.  The integer read is
    rounded to the nearest Number; ECMAScript lets an implementation
    replace the digits after the twentieth by zeros before it rounds,
    which this model does not do. *)
Definition parseInt (s : list ascii) : number :=
  match leadingDigits s with
  | [] => NaN
  | ds => round64 (decimalValue ds)
  end.

Definition add (x y : number) : number :=
  match x, y with
  | NaN, _ | _, NaN => NaN
  | Inf s, Inf t => if Bool.eqb s t then Inf s else NaN
  | Inf s, Int _ | Int _, Inf s => Inf s
  | Int a, Int b => round64 (a + b)
  end.

Definition neg (x : number) : number :=
  match x with
  | NaN => NaN
  | Inf s => Inf (negb s)
  | Int a => Int (- a)
  end.

Definition sub (x y : number) : number := add x (neg y).

Definition mul (x y : number) : number :=
  match x, y with
  | NaN, _ | _, NaN => NaN
  | Inf s, Inf t => Inf (xorb s t)
  | Inf s, Int a | Int a, Inf s =>
      if a =? 0 then NaN else Inf (xorb s (a <? 0))
  | Int a, Int b => round64 (a * b)
  end.

(** No guard on the divisor: [n / 0] is an infinity and [0 / 0] is NaN. *)
Definition div (x y : number) : quotient :=
  match x, y with
  | NaN, _ | _, NaN => Whole NaN
  | Inf _, Inf _ => Whole NaN
  | Inf s, Int b => Whole (Inf (xorb s (b <? 0)))
  | Int _, Inf _ => Whole (Int 0)
  | Int a, Int b =>
      if b =? 0 then
        if a =? 0 then Whole NaN else Whole (Inf (a <? 0))
      else if a mod b =? 0 then Whole (round64 (a / b))
      else Nearest a b
  end.

(** The decimal digits of a natural number, most significant first. *)
Fixpoint digitsOf (fuel : nat) (n : Z) (acc : list ascii) : list ascii :=
  match fuel with
  | O => acc
  | S fuel' =>
      let acc' := ascii_of_N (Z.to_N (48 + n mod 10)) :: acc in
      if n <? 10 then acc' else digitsOf fuel' (n / 10) acc'
  end.

Definition decimal (z : Z) : list ascii :=
  let a := Z.abs z in
  let ds := digitsOf (S (Z.to_nat (Z.log2 a))) a [] in
  if z <? 0 then "-"%char :: ds else ds.

(** The largest [n] such that every integer of magnitude at most [n] is a
    binary64 value printed with all its digits. *)
Definition maxExact : Z := 2 ^ 53.

Section ToString.
(** [Number::toString] on the binary64 value nearest to a rational, for
    the values that are not integers of magnitude at most [maxExact]
    (shortest digits that read back, exponent notation): taken from the
    runtime. *)
Variable renderNearest : Q -> list ascii.

(** [`${x}`] for a Number. *)
Definition numberToString (x : number) : list ascii :=
  match x with
  | NaN => chars "NaN"
  | Inf false => chars "Infinity"
  | Inf true => chars "-Infinity"
  | Int z => if Z.abs z <=? maxExact then decimal z else renderNearest (inject_Z z)
  end.

Definition quotientToString (x : quotient) : list ascii :=
  match x with
  | Whole y => numberToString y
  | Nearest n d => renderNearest (Qmake n (Z.to_pos d))
  end.
End ToString.

End Number.

(* ===================================================================== *)
(** * JSON values, as [JSON.parse] and [express.json()] deliver them *)
(* ===================================================================== *)

Module Json.
Import Text.

#[local] Unset Elimination Schemes.
Inductive json :=
| JNull
| JBool (b : bool)
| JNum (q : Q)
| JStr (s : string)
| JArr (items : list json)
| JObj (fields : list (string * json)).
#[local] Set Elimination Schemes.

(** A JavaScript value read from parsed JSON: [None] is [undefined]. *)
Definition value := option json.

(** The conversion to a boolean that [!v], [v && ...] and [if (v)] apply. *)
Definition truthy (v : value) : bool :=
  match v with
  | None | Some JNull => false
  | Some (JBool b) => b
  | Some (JNum q) => negb (Qeq_bool q 0)
  | Some (JStr s) => negb (String.eqb s "")
  | Some (JArr _) | Some (JObj _) => true
  end.

(** The member of an object: a key given twice keeps its last value. *)
Fixpoint member (k : string) (fields : list (string * json)) : value :=
  match fields with
  | [] => None
  | (k', v) :: rest =>
      match member k rest with
      | Some w => Some w
      | None => if String.eqb k k' then Some v else None
      end
  end.

(** [v.k] for a value [v] that is neither [undefined] nor [null], and a
    key [k] that is not an index: own members of an object, [length] of
    an array or of a string. *)
Definition prop (v : json) (k : string) : value :=
  match v with
  | JObj fields => member k fields
  | JArr items => if String.eqb k "length" then Some (JNum (inject_Z (Z.of_nat (length items)))) else None
  | JStr s => if String.eqb k "length" then Some (JNum (inject_Z (Z.of_nat (String.length s)))) else None
  | JNull | JBool _ | JNum _ => None
  end.

(** [v[0]] for such a value. *)
Definition first (v : json) : value :=
  match v with
  | JObj fields => member "0" fields
  | JArr items => head items
  | JStr s => match s with String c _ => Some (JStr (String c "")) | EmptyString => None end
  | JNull | JBool _ | JNum _ => None
  end.

End Json.

(* ===================================================================== *)
(** * Arrays: [slice] and [sort] *)
(* ===================================================================== *)

Module Arrays.

Section Slice.
Context {A : Type}.

(** The position a relative index of [slice] denotes in an array of
    length [len]: a negative index counts from the end. *)
Definition position (len : nat) (i : Z) : nat :=
  Z.to_nat (if (i <? 0)%Z then Z.max (Z.of_nat len + i) 0 else Z.min i (Z.of_nat len)).

(** [l.slice(start)] *)
Definition sliceFrom (start : Z) (l : list A) : list A :=
  drop (position (length l) start) l.

(** [l.slice(0, stop)] *)
Definition sliceTo (stop : Z) (l : list A) : list A :=
  take (position (length l) stop) l.
End Slice.

Section Sort.
Context {A : Type}.
(** The comparator: a positive result sends its first argument behind
    its second. *)
Variable compare : A -> A -> Q.

Fixpoint insertSorted (x : A) (l : list A) : list A :=
  match l with
  | [] => [x]
  | y :: l' =>
      if Qle_bool (compare x y) 0 then x :: y :: l' else y :: insertSorted x l'
  end.

(** [l.sort(compare)]: the sort of ECMAScript is stable, so elements the
    comparator does not order strictly keep their order; an insertion
    sort that lets an element pass only those strictly before it is the
    one stable arrangement. *)
Definition sort (l : list A) : list A := fold_right insertSorted [] l.
End Sort.

End Arrays.

(* ===================================================================== *)
(** * The server *)
(* ===================================================================== *)

Module Server.
Import Text Regex Number Json Arrays.

(** ** Data *)

Inductive Role := system | user | assistant.

(** A message of a conversation.  The content is a string; [None] stands
    for [undefined], the value of [botResponse] when no branch assigns it. *)
Record Turn := { role : Role; content : option string }.

Record KnowledgeEntry := { question : string; answer : string }.

(** The body of the request sent to the completions endpoint. *)
Record ProviderRequest := {
  model : string;
  messages : list Turn;
  max_tokens : Z;
  temperature : Q
}.

(** What [fetch] and the reading of the body deliver. *)
Inductive Body :=
| Unparsable                (* [response.json()] rejects *)
| Parsed (data : json).

Inductive FetchResult :=
| Rejected                  (* the promise of [fetch] rejects: no response *)
| Responded (status : Z) (body : Body).

(** The errors raised inside the [try] block of the handler. *)
Inductive exn :=
| NetworkError
| SyntaxError
| TypeError
| InvalidResponseFormat
| AuthenticationFailed
| ApiError (status : Z).

(** What the handler reads from outside the program. *)
Record Runtime := {
  toLocaleTimeString : string;          (* [new Date().toLocaleTimeString()] *)
  toLocaleDateString : string;          (* [new Date().toLocaleDateString()] *)
  mathRandom : Q;                       (* [Math.random()] *)
  fetch : ProviderRequest -> FetchResult;
  tfidf : list string -> string -> nat -> Q;
                                        (* the measure [natural] gives the
                                           i-th of the documents added, for a query *)
  renderNearest : Q -> list ascii;      (* see [Number.numberToString] *)
  coercesPositive : json -> bool        (* [x > 0] for a string or an array [x] *)
}.

(** The environment of the process and the file it loads at start. *)
Record Config := {
  env_GROQ_API_KEY : option string;
  env_SYSTEM_MESSAGE : option string;
  knowledge_base_json : option (list KnowledgeEntry)
                                        (* [None]: reading or parsing failed *)
}.

Definition nonEmpty (v : option string) : bool :=
  match v with
  | Some s => negb (String.eqb s "")
  | None => false
  end.

(** [process.env.GROQ_API_KEY], used as a condition. *)
Definition GROQ_API_KEY (cfg : Config) : bool := nonEmpty (env_GROQ_API_KEY cfg).

Definition SYSTEM_MESSAGE (cfg : Config) : string :=
  match env_SYSTEM_MESSAGE cfg with
  | Some s => if String.eqb s "" then
      "You are Yako, a helpful and friendly AI assistant powered by Groq's Llama 3 model. Use appropriate emojis in your responses to make them more engaging and expressive. For example, use 👋 for greetings, 🤔 for thinking, 💡 for ideas, ✅ for confirmations, etc."
    else s
  | None =>
      "You are Yako, a helpful and friendly AI assistant powered by Groq's Llama 3 model. Use appropriate emojis in your responses to make them more engaging and expressive. For example, use 👋 for greetings, 🤔 for thinking, 💡 for ideas, ✅ for confirmations, etc."
  end.

(** [knowledgeBase]: the entries of the file, or none when loading failed. *)
Definition knowledgeBase (cfg : Config) : list KnowledgeEntry :=
  match knowledge_base_json cfg with
  | Some entries => entries
  | None => []
  end.

(** ** The fallback generator *)

Definition fallbackResponses : list string := [
  "🤔 That's interesting! Can you tell me more about that?";
  "👍 I understand. What would you like to know?";
  "💯 That's a good point. How can I help you further?";
  "👀 I see. What else would you like to discuss?";
  "🙏 Thanks for sharing that with me. What's on your mind?";
  "😊 I appreciate you telling me that. How can I assist you?";
  "✅ That makes sense. What would you like to explore next?";
  "👂 I hear you. Is there anything specific I can help with?"
].

Definition greetingReply : string := "👋 Hello! Nice to meet you. How can I help you today?".
Definition howAreYouReply : string := "😊 I'm doing well, thank you for asking! How are you doing?".
Definition nameReply : string := "🤖 I'm Yako, an AI assistant here to help you. What's your name?".
Definition helpReply : string := "🙌 I'm here to help! What would you like assistance with?".
Definition byeReply : string := "👋 Goodbye! It was nice chatting with you. Have a great day!".

(** [Math.floor(Math.random() * fallbackResponses.length)] *)
Definition randomIndex (rt : Runtime) : Z :=
  Qfloor (mathRandom rt * inject_Z (Z.of_nat (length fallbackResponses))).

(** [fallbackResponses[i]] *)
Definition pick (i : Z) : option string :=
  if (i <? 0)%Z then None else fallbackResponses !! Z.to_nat i.

Definition getSmartFallback (rt : Runtime) (message : string) : option string :=
  let lowerMessage := toLowerCase (chars message) in
  if includes lowerMessage (chars "hello") || includes lowerMessage (chars "hi") then
    Some greetingReply
  else if includes lowerMessage (chars "how are you") then
    Some howAreYouReply
  else if includes lowerMessage (chars "what") && includes lowerMessage (chars "name") then
    Some nameReply
  else if includes lowerMessage (chars "help") then
    Some helpReply
  else if includes lowerMessage (chars "bye") || includes lowerMessage (chars "goodbye") then
    Some byeReply
  else
    pick (randomIndex rt).

(** ** Retrieval *)

Record Scored := { idx : nat; score : Q }.

(** The text of the documents given to [tfidf.addDocument], in order. *)
Definition documents (kb : list KnowledgeEntry) : list string :=
  map (fun entry => question entry +:+ " " +:+ answer entry) kb.

(** [retrieveRelevantContext(query, topK)]; [None] is the TypeError of
    reading [answer] of an entry that does not exist. *)
Definition retrieveRelevantContext (rt : Runtime) (kb : list KnowledgeEntry)
    (query : string) (topK : Z) : option (list string) :=
  if (length kb =? 0)%nat then Some []
  else
    let scores :=
      map (fun i => {| idx := i; score := tfidf rt (documents kb) query i |})
          (List.seq 0 (length kb)) in
    let sorted := sort (fun a b => (score b - score a)%Q) scores in
    let top := List.filter (fun s => negb (Qle_bool (score s) 0)) (sliceTo topK sorted) in
    mapM (fun s => answer <$> kb !! idx s) top.

(** ** The rules *)

Definition sp : regex := Cls Space.
Definition dg : regex := Cls Digit.
Definition any : regex := Star (Cls Dot).

(** [/^(what\s+is\s+)?2\s*\+\s*2(\s*=\s* )?$/i] (line 137; the source has no
    blank before the last parenthesis) *)
Definition reTwoPlusTwo : regex :=
  Seq [Opt (Grp 1 (Seq [lit "what"; Plus sp; lit "is"; Plus sp]));
       Chr "2"; Star sp; Chr "+"; Star sp; Chr "2";
       Opt (Grp 2 (Seq [Star sp; Chr "="; Star sp]))].

(** [/what.*time|current time/i] *)
Definition reTime : regex :=
  Alt (Seq [lit "what"; any; lit "time"]) (lit "current time").

(** [/what.*date|today.*date|current date/i] *)
Definition reDate : regex :=
  Alt (Seq [lit "what"; any; lit "date"])
      (Alt (Seq [lit "today"; any; lit "date"]) (lit "current date")).

(** [/\d+\s*OP\s*\d+/], the pattern an arithmetic rule tests. *)
Definition rePair (op : ascii) : regex :=
  Seq [Plus dg; Star sp; Chr op; Star sp; Plus dg].

(** [/(\d+)\s*OP\s*(\d+)/], the pattern it then matches. *)
Definition rePairGroups (op : ascii) : regex :=
  Seq [Grp 1 (Plus dg); Star sp; Chr op; Star sp; Grp 2 (Plus dg)].

(** [/who.*are.*you/i] *)
Definition reWho : regex := Seq [lit "who"; any; lit "are"; any; lit "you"].

(** [/how.*work/i] *)
Definition reHow : regex := Seq [lit "how"; any; lit "work"].

(** [/thank|thanks/i] *)
Definition reThank : regex := Alt (lit "thank") (lit "thanks").

(** [/^i\s*am\s*suhaira$/i] *)
Definition reSuhaira : regex :=
  Seq [lit "i"; Star sp; lit "am"; Star sp; lit "suhaira"].

(** With the flag [i] a letter of a pattern matches both of its cases; the
    patterns are written in lower case, so the match is that of the
    lower-cased subject. *)
Definition testIgnoreCase (r : regex) (s : list ascii) : bool := test r (toLowerCase s).
Definition testWholeIgnoreCase (r : regex) (s : list ascii) : bool :=
  testWhole r (toLowerCase s).

Definition twoPlusTwoReply : string := "2 + 2 = 4".
Definition whoReply : string :=
  "🤖 I'm Yako, an AI assistant designed to help answer your questions and have conversations.".
Definition howReply : string :=
  "💡 I work by using advanced natural language processing to understand your questions and provide helpful responses.".
Definition thankReply : string := "😊 You're welcome! I'm happy to help.".
Definition suhairaReply : string :=
  "❤️💖💙💚💛💜🧡 OMG! We have the most gorgeous lady in the world talking to us today! 💖❤️💙💚💛💜🧡 How are you doing Cutie Pie? 🧸🎀 You are Yako's Favorite User 💖❤️💙💚💛💜🧡 Talha Sent Flowers For You 🪷🌷🌼🦋✨🌸🌺🦩".

(** The body of an arithmetic branch: [numbers] is the result of
    [lowerMessage.match], the reply is assigned when it has its two
    groups. *)
Definition arithmeticReply (op : ascii) (sign : string)
    (compute : number -> number -> list ascii) (lowerMessage : list ascii) : option string :=
  match exec (rePairGroups op) lowerMessage with
  | Some numbers =>
      match group 1 numbers, group 2 numbers with
      | Some n1, Some n2 =>
          Some (text n1 +:+ " " +:+ sign +:+ " " +:+ text n2 +:+ " = "
                +:+ text (compute (parseInt n1) (parseInt n2)))
      | _, _ => None
      end
  | None => None
  end.

(** The rule engine: the branches of the handler before the provider, in
    their order.  [Some r]: a branch was taken and left [botResponse] at
    [r]; [None]: no rule matched. *)
Definition tryRules (rt : Runtime) (message : string) : option (option string) :=
  let lowerMessage := toLowerCase (chars message) in
  if testWholeIgnoreCase reTwoPlusTwo lowerMessage then
    Some (Some twoPlusTwoReply)
  else if testIgnoreCase reTime lowerMessage then
    Some (Some ("The current time is " +:+ toLocaleTimeString rt +:+ "."))
  else if testIgnoreCase reDate lowerMessage then
    Some (Some ("Today's date is " +:+ toLocaleDateString rt +:+ "."))
  else if test (rePair "+") lowerMessage then
    Some (arithmeticReply "+" "+"
            (fun a b => numberToString (renderNearest rt) (add a b)) lowerMessage)
  else if test (rePair "-") lowerMessage then
    Some (arithmeticReply "-" "-"
            (fun a b => numberToString (renderNearest rt) (sub a b)) lowerMessage)
  else if test (rePair "*") lowerMessage then
    Some (arithmeticReply "*" "×"
            (fun a b => numberToString (renderNearest rt) (mul a b)) lowerMessage)
  else if test (rePair "/") lowerMessage then
    Some (arithmeticReply "/" "÷"
            (fun a b => quotientToString (renderNearest rt) (div a b)) lowerMessage)
  else if testIgnoreCase reWho lowerMessage then
    Some (Some whoReply)
  else if testIgnoreCase reHow lowerMessage then
    Some (Some howReply)
  else if testIgnoreCase reThank lowerMessage then
    Some (Some thankReply)
  else if testWholeIgnoreCase reSuhaira (trim (chars message)) then
    Some (Some suhairaReply)
  else
    None.

(** ** The provider call *)

Definition newline : string := String "010"%char "".

(** [ragContexts.join(newline)] *)
Fixpoint join (sep : string) (l : list string) : string :=
  match l with
  | [] => ""
  | [x] => x
  | x :: rest => x +:+ sep +:+ join sep rest
  end.

(** [x > 0] for a value read from the response.  An object compares as
    NaN (or raises a TypeError when it hides [toString]): no reply comes
    of it either way. *)
Definition greaterThanZero (rt : Runtime) (v : value) : bool :=
  match v with
  | None | Some JNull | Some (JObj _) => false
  | Some (JBool b) => b
  | Some (JNum q) => negb (Qle_bool q 0)
  | Some (JStr _ as x) | Some (JArr _ as x) => coercesPositive rt x
  end.

(** [response.ok] *)
Definition ok (status : Z) : bool := (200 <=? status)%Z && (status <=? 299)%Z.

(** The reading of a response whose status is a success: the test on the
    shape of [data], then [data.choices[0].message.content.trim()]. *)
Definition readCompletion (rt : Runtime) (data : json) : exn + string :=
  if negb (truthy (Some data)) then inl InvalidResponseFormat
  else
    match prop data "choices" with
    | None | Some JNull => inl InvalidResponseFormat
    | Some choices =>
        if negb (truthy (Some choices)) then inl InvalidResponseFormat
        else if negb (greaterThanZero rt (prop choices "length")) then
          inl InvalidResponseFormat
        else
          match first choices with
          | None | Some JNull => inl TypeError
          | Some choice =>
              match prop choice "message" with
              | None | Some JNull => inl InvalidResponseFormat
              | Some msg =>
                  if negb (truthy (Some msg)) then inl InvalidResponseFormat
                  else
                    match prop msg "content" with
                    | Some (JStr s) => inr (text (trim (chars s)))
                    | _ => inl TypeError
                    end
              end
          end
    end.

Definition requestFor (cfg : Config) (contexts : list string) (history : list Turn)
    : ProviderRequest :=
  let contextString :=
    if (0 <? length contexts)%nat then "Relevant info: " +:+ join newline contexts else "" in
  {| model := "llama-3.3-70b-versatile";
     messages :=
       [{| role := system; content := Some (SYSTEM_MESSAGE cfg) |}]
       ++ (if String.eqb contextString "" then []
           else [{| role := system; content := Some contextString |}])
       ++ sliceFrom (-10) history;
     max_tokens := 500;
     temperature := Qmake 7 10 |}.

(** The branch [else if (GROQ_API_KEY)]: the requests sent, and the reply
    or the error raised. *)
Definition askGroq (cfg : Config) (rt : Runtime) (message : string) (history : list Turn)
    : list ProviderRequest * (exn + string) :=
  match retrieveRelevantContext rt (knowledgeBase cfg) message 1 with
  | None => ([], inl TypeError)
  | Some ragContexts =>
      let requestBody := requestFor cfg ragContexts history in
      ([requestBody],
       match fetch rt requestBody with
       | Rejected => inl NetworkError
       | Responded status body =>
           if ok status then
             match body with
             | Unparsable => inl SyntaxError
             | Parsed data => readCompletion rt data
             end
           else if (status =? 401)%Z then inl AuthenticationFailed
           else inl (ApiError status)
       end)
  end.

(** The inner [try ... catch]: the rules first, then the provider when a
    key is configured, else the fallback; an error raised on the way is
    caught and answered with the fallback. *)
Definition generate (cfg : Config) (rt : Runtime) (message : string) (history : list Turn)
    : list ProviderRequest * option string :=
  match tryRules rt message with
  | Some botResponse => ([], botResponse)
  | None =>
      if GROQ_API_KEY cfg then
        match askGroq cfg rt message history with
        | (sent, inr botResponse) => (sent, Some botResponse)
        | (sent, inl _) => (sent, getSmartFallback rt message)
        end
      else ([], getSmartFallback rt message)
  end.

(** ** The handler of [POST /api/chat] *)

(** What the handler reads of a request.  [req.body] is the object
    [express.json()] has parsed, so that [req.body.message] is a JSON
    value or [undefined]. *)
Record Request := {
  body_message : value;                 (* [req.body.message] *)
  header_session_id : option string     (* [req.headers['x-session-id']] *)
}.

Inductive Payload :=
| ChatReply (response : option string)
| ErrorBody (error : string) (details : option string).

Record Response := { status : Z; payload : Payload }.

Record Outcome := {
  response : Response;
  conversationHistory : gmap string (list Turn);
  sent : list ProviderRequest
}.

(** [req.headers['x-session-id'] || 'default'] *)
Definition sessionIdOf (req : Request) : string :=
  match header_session_id req with
  | Some s => if String.eqb s "" then "default" else s
  | None => "default"
  end.

Definition historyLimit : nat := 20.

Definition badRequest : Response :=
  {| status := 400; payload := ErrorBody "Message is required" None |}.

Definition internalError (details : string) : Response :=
  {| status := 500;
     payload := ErrorBody "Sorry, I encountered an error. Please try again." (Some details) |}.

(** [if (!message || message.trim() === '') return res.status(400)...]:
    the response that ends the request, or the message to answer.  A
    message that is not a string and not falsy has no [trim]: the call
    raises a TypeError, which the outer [catch] turns into a 500. *)
Definition validate (message : value) : Response + string :=
  if negb (truthy message) then inl badRequest
  else
    match message with
    | Some (JStr message) =>
        if String.eqb (text (trim (chars message))) "" then inl badRequest
        else inr message
    | _ => inl (internalError "message.trim is not a function")
    end.

(** The handler, run from its first line to its last without another
    request in between. *)
Definition chat (cfg : Config) (rt : Runtime) (req : Request)
    (store : gmap string (list Turn)) : Outcome :=
  match validate (body_message req) with
  | inl refusal => {| response := refusal; conversationHistory := store; sent := [] |}
  | inr message =>
      let sessionId := sessionIdOf req in
      let history := default [] (store !! sessionId) in
      let history := history ++ [{| role := user; content := Some message |}] in
      let '(requests, botResponse) := generate cfg rt message history in
      let history := history ++ [{| role := assistant; content := botResponse |}] in
      let history :=
        if (historyLimit <? length history)%nat then sliceFrom (-20) history else history in
      {| response := {| status := 200; payload := ChatReply botResponse |};
         conversationHistory := <[sessionId := history]> store;
         sent := requests |}
  end.

(** [GET /api/history] *)
Definition getHistory (req : Request) (store : gmap string (list Turn)) : list Turn :=
  default [] (store !! sessionIdOf req).

(** The stores the server goes through: empty at start, then one request
    after the other. *)
Inductive reachable (cfg : Config) : gmap string (list Turn) -> Prop :=
| reach_start : reachable cfg ∅
| reach_chat rt req store :
    reachable cfg store ->
    reachable cfg (conversationHistory (chat cfg rt req store)).

End Server.

(* ===================================================================== *)
(** * The arrays behind the session store *)
(* ===================================================================== *)

Module Interleaved.
Import Text Json Arrays Server.

(** The histories are arrays, and the map holds them by reference:
    [history.push] changes the array the map holds, [history.slice] makes
    a new one.  [arrays] are the arrays made so far, a reference is a
    position in that list. *)
Record Memory := {
  arrays : list (list Turn);
  table : gmap string nat               (* [conversationHistory] *)
}.

Definition contents (m : Memory) (ref : nat) : list Turn := default [] (arrays m !! ref).

(** What [GET /api/history] can read: the arrays the map holds. *)
Definition view (m : Memory) : gmap string (list Turn) := contents m <$> table m.

(** [array.push(turn)], in place. *)
Definition push (ref : nat) (turn : Turn) (m : Memory) : Memory :=
  {| arrays := alter (fun a => a ++ [turn]) ref (arrays m); table := table m |}.

(** A new array. *)
Definition allocate (a : list Turn) (m : Memory) : nat * Memory :=
  (length (arrays m), {| arrays := arrays m ++ [a]; table := table m |}).

(** [conversationHistory.set(sessionId, array)] *)
Definition store (sessionId : string) (ref : nat) (m : Memory) : Memory :=
  {| arrays := arrays m; table := <[sessionId := ref]> (table m) |}.

(** A request that waits for the provider: what its local variables hold. *)
Record Pending := {
  sessionId : string;
  history : nat;
  botResponse : option string;
  requests : list ProviderRequest
}.

(** The handler up to the point where it has its reply: validation,
    [conversationHistory.get(sessionId) || []], the push of the user
    turn, the rules, the request to the provider built from the array as
    it is then. *)
Definition start (cfg : Config) (rt : Runtime) (req : Request) (m : Memory)
    : (Response + Pending) * Memory :=
  match validate (body_message req) with
  | inl refusal => (inl refusal, m)
  | inr message =>
      let '(ref, m) :=
        match table m !! sessionIdOf req with
        | Some ref => (ref, m)
        | None => allocate [] m
        end in
      let m := push ref {| role := user; content := Some message |} m in
      let '(sent, reply) := generate cfg rt message (contents m ref) in
      (inr {| sessionId := sessionIdOf req; history := ref;
              botResponse := reply; requests := sent |}, m)
  end.

(** The rest of the handler: the push of the assistant turn, the
    truncation, [conversationHistory.set], the response. *)
Definition resume (p : Pending) (m : Memory) : Response * Memory :=
  let m := push (history p) {| role := assistant; content := botResponse p |} m in
  let '(ref, m) :=
    if (historyLimit <? length (contents m (history p)))%nat
    then allocate (sliceFrom (-20) (contents m (history p))) m
    else (history p, m) in
  ({| status := 200; payload := ChatReply (botResponse p) |}, store (sessionId p) ref m).

(** A request run without another one in between. *)
Definition handle (cfg : Config) (rt : Runtime) (req : Request) (m : Memory)
    : Response * list ProviderRequest * Memory :=
  match start cfg rt req m with
  | (inl refusal, m) => (refusal, [], m)
  | (inr p, m) => let '(resp, m) := resume p m in (resp, requests p, m)
  end.

(** The references of the map are arrays that exist, a different one for
    each session. *)
Definition wellFormed (m : Memory) : Prop :=
  (forall sid ref, table m !! sid = Some ref -> (ref < length (arrays m))%nat) /\
  (forall sid1 sid2 ref,
     table m !! sid1 = Some ref -> table m !! sid2 = Some ref -> sid1 = sid2).

End Interleaved.

(* ===================================================================== *)
(** * The other endpoints, and the start of the server *)
(* ===================================================================== *)

Module Endpoints.
Import Text Json Server.

(** ** [GET /api/check-api-key] *)

(** The body of the answer, always sent with status 200.  [message] is a
    JSON value: the endpoint passes on what it finds in the body of the
    provider. *)
Record KeyStatus := { valid : bool; message : value }.

Section CheckApiKey.

(** [fetch] of the models endpoint with the [Authorization] header
    given, and [error.message] for an error raised in the [try] block. *)
Variable fetchModels : string -> FetchResult.
Variable errorMessage : exn -> string.

(** The [catch] block. *)
Definition caught (e : exn) : KeyStatus :=
  {| valid := false; message := Some (JStr (errorMessage e)) |}.

(** [error.error?.message || 'Invalid API key'], for [error] the parsed
    body; reading [error] of [null] raises a TypeError. *)
Definition refusalMessage (error : json) : exn + value :=
  match error with
  | JNull => inl TypeError
  | _ =>
      let message :=
        match prop error "error" with
        | None | Some JNull => None
        | Some inner => prop inner "message"
        end in
      inr (if truthy message then message else Some (JStr "Invalid API key"))
  end.

(** The handler: the [Authorization] headers of the requests it sends,
    and its answer. *)
Definition checkApiKey (cfg : Config) : list string * KeyStatus :=
  if negb (GROQ_API_KEY cfg) then
    ([], {| valid := false; message := Some (JStr "No API key provided") |})
  else
    let authorization := "Bearer " +:+ default "" (env_GROQ_API_KEY cfg) in
    ([authorization],
     match fetchModels authorization with
     | Rejected => caught NetworkError
     | Responded status body =>
         if ok status then {| valid := true; message := Some (JStr "API key is valid") |}
         else
           match body with
           | Unparsable => caught SyntaxError
           | Parsed error =>
               match refusalMessage error with
               | inl e => caught e
               | inr message => {| valid := false; message := message |}
               end
           end
     end).

End CheckApiKey.

End Endpoints.

Module Startup.

(** An address of a network interface, as [os.networkInterfaces()]
    describes it. *)
Record NetworkInterfaceInfo := { family : string; internal : bool; address : string }.

(** [net.family === 'IPv4' && !net.internal] *)
Definition external (net : NetworkInterfaceInfo) : bool :=
  String.eqb (family net) "IPv4" && negb (internal net).

(** The address printed for access from a phone.  [nets] are the
    interfaces in the order of [Object.keys]; the [break] leaves the loop
    over the addresses of one interface, not the loop over the
    interfaces. *)
Definition localIp (nets : list (string * list NetworkInterfaceInfo)) : string :=
  fold_left
    (fun localIp entry =>
       match List.find external entry.2 with
       | Some net => address net
       | None => localIp
       end)
    nets "127.0.0.1".

End Startup.

(* ===================================================================== *)
(** * The notions the properties are stated with *)
(* ===================================================================== *)

Module PairDefs.
Import Text Regex.

(** No character of the class at the head of the string. *)
Definition noneAhead (p : ascii -> bool) (t : list ascii) : Prop :=
  match t with
  | x :: _ => p x = false
  | [] => True
  end.

Definition allOf (p : ascii -> bool) (w : list ascii) : Prop := Forall (fun c => p c = true) w.

(** An occurrence of [a OP b] in [s], after [pre] and before [post]: two
    non-empty runs of digits around the operator, white space allowed on
    both sides of it. *)
Definition PairAt (op : ascii) (s pre a b post : list ascii) : Prop :=
  exists ws1 ws2,
    s = pre ++ a ++ ws1 ++ op :: ws2 ++ b ++ post /\
    a <> [] /\ b <> [] /\ allOf isDigit a /\ allOf isDigit b /\
    allOf isSpace ws1 /\ allOf isSpace ws2.

(** The first pair of [s]: the occurrence that starts first, its second
    number read to its last digit. *)
Definition FirstPair (op : ascii) (s a b : list ascii) : Prop :=
  exists pre post,
    PairAt op s pre a b post /\ noneAhead isDigit post /\
    forall pre' a' b' post', PairAt op s pre' a' b' post' -> (length pre <= length pre')%nat.

Definition notDigit (c : ascii) : bool := negb (isDigit c).

End PairDefs.

Module PhraseDefs.
Import Text Regex PairDefs.





End PhraseDefs.

Module SessionDefs.
Import Text Regex Json Arrays PairDefs Server.

(** The [n] most recent elements of a list that grows at its end, oldest
    first. *)
Definition mostRecent {A} (n : nat) (l : list A) : list A := drop (length l - n) l.

(** A message that is missing, empty, or made of white space only. *)
Definition blank (v : value) : Prop :=
  v = None \/ exists s, v = Some (JStr s) /\ allOf isSpace (chars s).

(** A request the handler answers: its message is a string with more in
    it than white space. *)
Definition accepted (req : Request) (message : string) : Prop :=
  body_message req = Some (JStr message) /\ text (trim (chars message)) <> "".

Definition other (r : Role) : Role :=
  match r with
  | user => assistant
  | assistant => user
  | system => system
  end.

Definition sameRole (a b : Role) : bool :=
  match a, b with
  | system, system | user, user | assistant, assistant => true
  | _, _ => false
  end.

(** The roles of the turns alternate, starting with [first]. *)
Fixpoint alternates (first : Role) (h : list Turn) : bool :=
  match h with
  | [] => true
  | t :: h' => sameRole (role t) first && alternates (other first) h'
  end.

(** A history of whole exchanges: a user turn, its answer, and so on. *)
Definition exchanges (h : list Turn) : Prop :=
  Nat.even (length h) = true /\ alternates user h = true.

Definition userTurn (message : string) : Turn := {| role := user; content := Some message |}.
Definition assistantTurn (reply : option string) : Turn :=
  {| role := assistant; content := reply |}.

End SessionDefs.

Module FallbackDefs.
Import Text Regex Json Arrays PairDefs Server.

(** [w] occurs in [s], anywhere. *)
Definition Contains (s : list ascii) (w : string) : Prop :=
  exists pre post, s = pre ++ chars w ++ post.


(** The string at [data.choices[0].message.content], when the response
    has one. *)
Definition contentOf (data : json) : option string :=
  match prop data "choices" with
  | Some choices =>
      match first choices with
      | Some choice =>
          match prop choice "message" with
          | Some msg =>
              match prop msg "content" with
              | Some (JStr s) => Some s
              | _ => None
              end
          | None => None
          end
      | None => None
      end
  | None => None
  end.

(** The ways the call to the provider fails: no response at all, a status
    that is not a success, a body that is not JSON, a body without the
    content of a first choice. *)
Inductive failed : FetchResult -> Prop :=
| failed_network : failed Rejected
| failed_status status body : ok status = false -> failed (Responded status body)
| failed_body status : failed (Responded status Unparsable)
| failed_shape status data : contentOf data = None -> failed (Responded status (Parsed data)).

End FallbackDefs.

Module CascadeDefs.
Import Text Server FallbackDefs.


End CascadeDefs.

Module RuleDefs.
Import Text Regex Number PairDefs Server.

(** [lowerMessage] *)
Definition lowerOf (message : string) : list ascii := toLowerCase (chars message).

(** The conditions of the rules, as the handler evaluates them. *)
Definition ruleTwoPlusTwo (message : string) : bool :=
  testWholeIgnoreCase reTwoPlusTwo (lowerOf message).
Definition ruleTime (message : string) : bool := testIgnoreCase reTime (lowerOf message).
Definition ruleDate (message : string) : bool := testIgnoreCase reDate (lowerOf message).
Definition rulePair (op : ascii) (message : string) : bool := test (rePair op) (lowerOf message).
Definition ruleWho (message : string) : bool := testIgnoreCase reWho (lowerOf message).
Definition ruleHow (message : string) : bool := testIgnoreCase reHow (lowerOf message).
Definition ruleThank (message : string) : bool := testIgnoreCase reThank (lowerOf message).
Definition ruleSuhaira (message : string) : bool :=
  testWholeIgnoreCase reSuhaira (trim (chars message)).

(** The reply of an arithmetic rule: the two numbers as written, the sign
    between them, the result after [=]. *)
Definition formatted (a : list ascii) (sign : string) (b result : list ascii) : string :=
  text a +:+ " " +:+ sign +:+ " " +:+ text b +:+ " = " +:+ text result.

End RuleDefs.

Module RetrievalDefs.
Import Text Arrays Server.

(** The scores [tfidf.tfidfs] reports: one for each document, in the
    order in which the documents were added. *)
Definition scoresOf (rt : Runtime) (kb : list KnowledgeEntry) (query : string) : list Scored :=
  map (fun i => {| idx := i; score := tfidf rt (documents kb) query i |})
      (List.seq 0 (length kb)).


Definition positive (s : Scored) : bool := negb (Qle_bool (score s) 0).

(** [a] is the answer of the entry the score [s] belongs to. *)
Definition answerOf (kb : list KnowledgeEntry) (s : Scored) (a : string) : Prop :=
  exists entry, kb !! idx s = Some entry /\ a = answer entry.

(** The comparator [(a, b) => b.score - a.score]. *)
Definition byScore (a b : Scored) : Q := (score b - score a)%Q.

End RetrievalDefs.

Module HandlerDefs.
Import Text Json PairDefs Server.



End HandlerDefs.

Module StoreDefs.
Import Text Json Server.

(** A turn as the handler stores it: the message of an answered request,
    or a reply. *)
Definition storedTurn (t : Turn) : Prop :=
  (role t = user /\ exists message, content t = Some message /\ text (trim (chars message)) <> "")
  \/ role t = assistant.

(** A request that names no session: no header, or an empty one. *)
Definition anonymous (req : Request) : Prop :=
  header_session_id req = None \/ header_session_id req = Some "".

End StoreDefs.

Module KeywordDefs.
Import Text Regex PairDefs FallbackDefs Server.










Definition timeReply (rt : Runtime) : string :=
  "The current time is " +:+ toLocaleTimeString rt +:+ ".".

Definition dateReply (rt : Runtime) : string :=
  "Today's date is " +:+ toLocaleDateString rt +:+ ".".

End KeywordDefs.

Module Examples.
Import Text Regex Number Json Arrays Server.

(** A runtime for the examples: a fixed clock, a random source stuck at
    one half, a provider that is out of reach. *)
Definition offline : Runtime := {|
  toLocaleTimeString := "10:15:00 AM";
  toLocaleDateString := "1/2/2025";
  mathRandom := Qmake 1 2;
  fetch := fun _ => Rejected;
  tfidf := fun _ _ _ => 0%Q;
  renderNearest := fun _ => chars "?";
  coercesPositive := fun _ => false
|}.

Definition noKey : Config := {|
  env_GROQ_API_KEY := None;
  env_SYSTEM_MESSAGE := None;
  knowledge_base_json := None
|}.

Definition withKey : Config := {|
  env_GROQ_API_KEY := Some "gsk_test";
  env_SYSTEM_MESSAGE := None;
  knowledge_base_json := None
|}.

Definition say (message : string) : Request :=
  {| body_message := Some (JStr message); header_session_id := None |}.

(** The same runtime with a provider that gives one answer to every
    request. *)
Definition answering (result : FetchResult) : Runtime := {|
  toLocaleTimeString := toLocaleTimeString offline;
  toLocaleDateString := toLocaleDateString offline;
  mathRandom := mathRandom offline;
  fetch := fun _ => result;
  tfidf := tfidf offline;
  renderNearest := renderNearest offline;
  coercesPositive := coercesPositive offline
|}.

(** A completion as the provider sends it, and a body without choices. *)
Definition completion : json :=
  JObj [("id", JStr "cmpl-1");
        ("choices",
         JArr [JObj [("index", JNum 0);
                     ("message", JObj [("role", JStr "assistant");
                                       ("content", JStr " Paris. ")])]])].

Definition noChoices : json := JObj [("id", JStr "cmpl-2"); ("choices", JArr [])].


(** Twelve greetings: 24 turns, four more than the store keeps. *)
Definition greetings : list string :=
  ["hello a"; "hello b"; "hello c"; "hello d"; "hello e"; "hello f";
   "hello g"; "hello h"; "hello i"; "hello j"; "hello k"; "hello l"].



End Examples.

Module RaceDefs.
Import Text Json Server SessionDefs Interleaved.

(** A memory with one session, [default], and its history. *)
Definition oneSession (h : list Turn) : Memory :=
  {| arrays := [h]; table := {[ "default" := 0%nat ]} |}.

Definition noSession : Memory := {| arrays := []; table := ∅ |}.

(** The requests that wait, and so let others run before they resume:
    those that call the provider.  A request a rule answers, and any
    request without a key, runs to its end at once. *)
Definition waits (cfg : Config) (rt : Runtime) (message : string) : Prop :=
  GROQ_API_KEY cfg = true /\ tryRules rt message = None.

(** A history at the limit: ten exchanges. *)
Definition full : list Turn :=
  flat_map (fun message => [userTurn message; assistantTurn (Some greetingReply)])
    (take 10 Examples.greetings).

End RaceDefs.

Module EndpointDefs.
Import Text Json Server Startup.

(** The message of the provider's error body, when it has one that is
    not falsy. *)
Definition providerMessage (error : json) : value :=
  match prop error "error" with
  | None | Some JNull => None
  | Some inner => prop inner "message"
  end.

Definition wired : NetworkInterfaceInfo :=
  {| family := "IPv4"; internal := false; address := "192.168.1.5" |}.
Definition wireless : NetworkInterfaceInfo :=
  {| family := "IPv4"; internal := false; address := "10.0.0.7" |}.
Definition loopback : NetworkInterfaceInfo :=
  {| family := "IPv4"; internal := true; address := "127.0.0.1" |}.
Definition linkLocal6 : NetworkInterfaceInfo :=
  {| family := "IPv6"; internal := false; address := "fe80::1" |}.

(** The body of a refusal as the provider sends it. *)
Definition invalidKeyBody : json :=
  JObj [("error", JObj [("message", JStr "Invalid API Key"); ("type", JStr "invalid_request_error")])].

End EndpointDefs.

Module RangeDefs.
Import Text.


End RangeDefs.

(* ===================================================================== *)
(** * Properties *)
(* ===================================================================== *)

Module RegexFacts.
Import Text Regex.

Lemma in_withCaptures c o l :
  In o (map (withCaptures c) l) <-> exists o', In o' l /\ o = (c ++ o'.1, o'.2).
Proof.
  rewrite in_map_iff. split; intros [o' [H1 H2]]; exists o'; unfold withCaptures in *; auto.
Qed.

(** Soundness of the star loop, given that of its body. *)
Lemma starLoop_sound r body :
  (forall s o, In o (body s) -> exists w, s = w ++ o.2 /\ Matches r w o.1) ->
  forall k s o, In o (starLoop body k s) -> exists w, s = w ++ o.2 /\ Matches (Star r) w o.1.
Proof.
  intros Hbody k. induction k as [|k IH]; intros s o Hin; simpl in Hin.
  - destruct Hin as [<-|[]]. exists []. split; [reflexivity | constructor].
  - apply in_app_iff in Hin. destruct Hin as [Hin|[<-|[]]].
    + apply in_flat_map in Hin. destruct Hin as [o1 [Ho1 Hin]].
      destruct (length o1.2 <? length s)%nat; [|contradiction].
      apply in_withCaptures in Hin. destruct Hin as [o2 [Ho2 ->]]. simpl.
      destruct (Hbody _ _ Ho1) as [w1 [E1 M1]].
      destruct (IH _ _ Ho2) as [w2 [E2 M2]].
      exists (w1 ++ w2). split.
      * rewrite E1 at 1. rewrite E2 at 1. now rewrite app_assoc.
      * now constructor.
    + exists []. split; [reflexivity | constructor].
Qed.

(** Every outcome of [run] splits the subject into a word of the pattern,
    with the captures reported, and the rest. *)
Lemma run_sound r : forall n s o,
  In o (run r n s) -> exists w, s = w ++ o.2 /\ Matches r w o.1.
Proof.
  induction r as [|c|k|r1 IH1 r2 IH2|r1 IH1 r2 IH2|r1 IH1|i r1 IH1]; intros n s o Hin; simpl in Hin.
  - destruct Hin as [<-|[]]. exists []. split; [reflexivity|constructor].
  - destruct s as [|x t]; [contradiction|].
    destruct (Ascii.eqb_spec x c) as [->|]; [|contradiction].
    destruct Hin as [<-|[]]. exists [c]. split; [reflexivity|constructor].
  - destruct s as [|x t]; [contradiction|].
    destruct (inClass k x) eqn:E; [|contradiction].
    destruct Hin as [<-|[]]. exists [x]. split; [reflexivity|now constructor].
  - apply in_flat_map in Hin. destruct Hin as [o1 [Ho1 Hin]].
    apply in_withCaptures in Hin. destruct Hin as [o2 [Ho2 ->]]. simpl.
    destruct (IH1 _ _ _ Ho1) as [w1 [E1 M1]].
    destruct (IH2 _ _ _ Ho2) as [w2 [E2 M2]].
    exists (w1 ++ w2). split.
    + rewrite E1 at 1. rewrite E2 at 1. now rewrite app_assoc.
    + now constructor.
  - apply in_app_iff in Hin. destruct Hin as [Hin|Hin].
    + destruct (IH1 _ _ _ Hin) as [w [E M]]. exists w. split; [assumption|now apply MAltL].
    + destruct (IH2 _ _ _ Hin) as [w [E M]]. exists w. split; [assumption|now apply MAltR].
  - eapply starLoop_sound; [|exact Hin]. intros s' o'. apply IH1.
  - apply in_map_iff in Hin. destruct Hin as [o1 [<- Ho1]]. simpl.
    destruct (IH1 _ _ _ Ho1) as [w [E M]]. exists w. split; [assumption|].
    assert (Ht : take (length s - length o1.2) s = w).
    { rewrite E, length_app, Nat.add_sub. apply take_app_length. }
    rewrite Ht. now constructor.
Qed.

(** A star matches a word by iterations none of which is empty. *)
Lemma Matches_star_inv r w c :
  Matches (Star r) w c ->
  w = [] \/ exists w1 w2 c1 c2, w = w1 ++ w2 /\ w1 <> [] /\ Matches r w1 c1 /\ Matches (Star r) w2 c2.
Proof.
  intros H. remember (Star r) as r' eqn:E. induction H; try discriminate.
  - now left.
  - injection E as ->. destruct w1 as [|x w1].
    + simpl. now apply IHMatches2.
    + right. exists (x :: w1), w2, c1, c2. repeat split; auto; discriminate.
Qed.

Lemma starLoop_complete r body (n : nat) :
  (forall w c, Matches r w c -> forall t, (length (w ++ t) <= n)%nat ->
     exists c', In (c', t) (body (w ++ t))) ->
  forall k w c, Matches (Star r) w c -> forall t, (length (w ++ t) <= k)%nat -> (k <= n)%nat ->
    exists c', In (c', t) (starLoop body k (w ++ t)).
Proof.
  intros Hbody k. induction k as [|k IH]; intros w c HM t Hlen Hk.
  - destruct w; simpl in Hlen; [|lia]. destruct t; simpl in Hlen; [|lia].
    exists []. now left.
  - remember (length w) as m eqn:Em. revert w c Em HM t Hlen.
    induction m as [m IHm] using lt_wf_ind. intros w c Em HM t Hlen.
    destruct (Matches_star_inv _ _ _ HM) as [->|[w1 [w2 [c1 [c2 [-> [Hne [M1 M2]]]]]]]].
    + exists []. simpl. apply in_app_iff. right. now left.
    + assert (Hl1 : (0 < length w1)%nat) by (destruct w1; [congruence|simpl; lia]).
      rewrite length_app in Hlen. rewrite length_app in Hlen.
      destruct (Hbody w1 _ M1 (w2 ++ t)) as [d1 Hd1].
      { rewrite !length_app. lia. }
      destruct (IH w2 _ M2 t) as [d2 Hd2].
      { rewrite length_app. lia. } { lia. }
      exists (d1 ++ d2). simpl. apply in_app_iff. left.
      apply in_flat_map. exists (d1, w2 ++ t). split.
      * now rewrite <- app_assoc.
      * simpl. rewrite <- app_assoc.
        replace (length (w2 ++ t) <? length (w1 ++ w2 ++ t))%nat with true.
        2:{ symmetry. apply Nat.ltb_lt. rewrite !length_app. lia. }
        apply in_withCaptures. exists (d2, t). split; auto.
Qed.

(** Every word of the pattern at the head of the subject is among the
    outcomes of [run]. *)
Lemma run_complete r w c : Matches r w c ->
  forall n t, (length (w ++ t) <= n)%nat -> exists c', In (c', t) (run r n (w ++ t)).
Proof.
  revert w c. induction r as [|x|k|r1 IH1 r2 IH2|r1 IH1 r2 IH2|r1 IH1|i r1 IH1];
    intros w c HM n t Hlen.
  - inversion HM; subst. exists []. now left.
  - inversion HM; subst. exists []. simpl. rewrite Ascii.eqb_refl. now left.
  - inversion HM as [| |? ? Hc| | | | | |]; subst. exists []. simpl. rewrite Hc. now left.
  - inversion HM as [| | |? ? w1 w2 c1 c2 M1 M2| | | | |]; subst.
    destruct (IH1 _ _ M1 n (w2 ++ t)) as [d1 Hd1]. { now rewrite app_assoc. }
    destruct (IH2 _ _ M2 n t) as [d2 Hd2]. { rewrite !length_app in *. lia. }
    exists (d1 ++ d2). simpl. apply in_flat_map. exists (d1, w2 ++ t). split.
    + now rewrite <- app_assoc.
    + apply in_withCaptures. exists (d2, t). auto.
  - inversion HM as [| | | |? ? ? ? M1|? ? ? ? M1| | |]; subst.
    + destruct (IH1 _ _ M1 n t Hlen) as [d Hd]. exists d. simpl. apply in_app_iff. now left.
    + destruct (IH2 _ _ M1 n t Hlen) as [d Hd]. exists d. simpl. apply in_app_iff. now right.
  - simpl. eapply starLoop_complete with (n := n) (r := r1); eauto.
  - inversion HM as [| | | | | | | |? ? ? ? M1]; subst. destruct (IH1 _ _ M1 n t Hlen) as [d Hd].
    eexists. simpl. apply in_map_iff. exists (d, t). split; [reflexivity|assumption].
Qed.

(** [testWhole] decides whether the whole subject is a word of the pattern. *)
Lemma testWhole_spec r s : testWhole r s = true <-> Accepts r s.
Proof.
  unfold testWhole, Accepts. rewrite existsb_exists. split.
  - intros [o [Hin Ho]]. destruct (run_sound _ _ _ _ Hin) as [w [E M]].
    destruct o.2; [|discriminate]. rewrite app_nil_r in E. subst. eauto.
  - intros [c M]. destruct (run_complete _ _ _ M (length s) []) as [c' Hc].
    { now rewrite app_nil_r. }
    rewrite app_nil_r in Hc. exists (c', []). auto.
Qed.

Lemma exec_None r s :
  exec r s = None <-> forall pre suf, s = pre ++ suf -> run r (length suf) suf = [].
Proof.
  induction s as [|x s IH]; simpl.
  - destruct (run r 0 []) eqn:E; split; try discriminate; auto.
    + intros _ pre suf Hs. symmetry in Hs. apply app_eq_nil in Hs as [-> ->]. exact E.
    + intros H. specialize (H [] [] eq_refl). simpl in H. congruence.
  - destruct (run r (S (length s)) (x :: s)) eqn:E.
    + rewrite IH. split.
      * intros H pre suf Hs. destruct pre as [|y pre].
        -- simpl in Hs. subst suf. exact E.
        -- injection Hs as -> Hs. now apply (H pre).
      * intros H pre suf Hs. apply (H (x :: pre)). simpl. now f_equal.
    + split; [discriminate|]. intros H. specialize (H [] (x :: s) eq_refl).
      simpl in H. congruence.
Qed.

(** [exec] reports the first outcome at the first position that has one. *)
Lemma exec_Some r s c :
  exec r s = Some c <->
  exists pre suf o, s = pre ++ suf /\ head (run r (length suf) suf) = Some o /\ o.1 = c /\
    forall pre' suf', s = pre' ++ suf' -> (length pre' < length pre)%nat ->
      run r (length suf') suf' = [].
Proof.
  revert c. induction s as [|x s IH]; intros c; simpl.
  - destruct (run r 0 []) as [|o l] eqn:E; split.
    + discriminate.
    + intros [pre [suf [o [Hs [Ho _]]]]]. symmetry in Hs.
      apply app_eq_nil in Hs as [-> ->]. simpl in Ho. rewrite E in Ho. discriminate.
    + intros [= <-]. exists [], [], o. simpl. rewrite E. repeat split; auto.
      intros ? ? _ ?. lia.
    + intros [pre [suf [o' [Hs [Ho [Hc _]]]]]]. symmetry in Hs.
      apply app_eq_nil in Hs as [-> ->]. simpl in Ho. rewrite E in Ho.
      injection Ho as <-. now subst.
  - destruct (run r (S (length s)) (x :: s)) as [|o l] eqn:E.
    + rewrite IH. split.
      * intros [pre [suf [o [Hs [Ho [Hc Hfirst]]]]]].
        exists (x :: pre), suf, o. repeat split; auto.
        -- simpl. now f_equal.
        -- intros pre' suf' Hs' Hl. destruct pre' as [|y pre'].
           ++ simpl in Hs'. subst suf'. exact E.
           ++ injection Hs' as -> Hs'. apply (Hfirst pre'); auto. simpl in Hl. lia.
      * intros [pre [suf [o [Hs [Ho [Hc Hfirst]]]]]]. destruct pre as [|y pre].
        -- simpl in Hs. subst suf. simpl in Ho. rewrite E in Ho. discriminate.
        -- injection Hs as -> Hs. exists pre, suf, o. repeat split; auto.
           intros pre' suf' Hs' Hl. apply (Hfirst (y :: pre')).
           ++ simpl. now f_equal.
           ++ simpl. lia.
    + split.
      * intros [= <-]. exists [], (x :: s), o. simpl. rewrite E. repeat split; auto.
        intros ? ? _ ?. lia.
      * intros [pre [suf [o' [Hs [Ho [Hc Hfirst]]]]]]. destruct pre as [|y pre].
        -- simpl in Hs. subst suf. simpl in Ho. rewrite E in Ho. injection Ho as <-.
           now subst.
        -- exfalso. specialize (Hfirst [] (x :: s) eq_refl). simpl in Hfirst.
           rewrite E in Hfirst. assert (o :: l = []) by (apply Hfirst; lia). discriminate.
Qed.

(** [test] decides whether some part of the subject is a word of the
    pattern. *)
Lemma test_spec r s :
  test r s = true <-> exists pre w post, s = pre ++ w ++ post /\ Accepts r w.
Proof.
  unfold test. split.
  - destruct (exec r s) eqn:E; [|discriminate]. intros _.
    apply exec_Some in E. destruct E as [pre [suf [o [Hs [Ho _]]]]].
    assert (Hin : In o (run r (length suf) suf)).
    { destruct (run r (length suf) suf); [discriminate|]. injection Ho as ->. now left. }
    destruct (run_sound _ _ _ _ Hin) as [w [Ew M]].
    exists pre, w, o.2. split; [now rewrite <- Ew|now exists o.1].
  - intros [pre [w [post [Hs [c M]]]]].
    destruct (exec r s) eqn:E; [reflexivity|]. exfalso.
    rewrite exec_None in E. specialize (E pre (w ++ post) Hs).
    destruct (run_complete _ _ _ M (length (w ++ post)) post) as [c' Hc]; [lia|].
    rewrite E in Hc. contradiction.
Qed.

End RegexFacts.

Module PatternFacts.
Import Text Regex RegexFacts.

Lemma in_allAscii c : In c allAscii.
Proof.
  unfold allAscii. apply in_map_iff. exists (nat_of_ascii c). split.
  - apply ascii_nat_embedding.
  - apply in_seq. pose proof (nat_ascii_bounded c). lia.
Qed.

(** The characters of a word of the pattern belong to its alphabet. *)
Lemma Matches_alphabet r w c :
  Matches r w c -> Forall (fun x => alphabet r x = true) w.
Proof.
  induction 1; simpl; try constructor; auto.
  - apply Ascii.eqb_refl.
  - apply Forall_app. split; eapply Forall_impl; eauto; simpl; intros ? ->;
      auto using orb_true_r.
  - eapply Forall_impl; eauto. simpl. intros ? ->. reflexivity.
  - eapply Forall_impl; eauto. simpl. intros ? ->. apply orb_true_r.
  - apply Forall_app. split; assumption.
Qed.

(** A pattern with a word over the allowed characters is feasible. *)
Lemma Matches_feasible allowed r w c :
  Matches r w c -> Forall (fun x => allowed x = true) w -> feasible allowed r = true.
Proof.
  induction 1; cbn [feasible]; intros Hall; auto.
  - now inversion Hall.
  - apply existsb_exists. exists c. split; [apply in_allAscii|].
    inversion Hall; subst. now rewrite H, H2.
  - apply Forall_app in Hall as [H1 H2]. rewrite IHMatches1, IHMatches2; auto.
  - rewrite IHMatches; auto.
  - rewrite IHMatches; auto using orb_true_r.
Qed.

Lemma Forall_part {A} (P : A -> Prop) pre w post :
  Forall P (pre ++ w ++ post) -> Forall P w.
Proof.
  intros H. apply Forall_app in H as [_ H]. now apply Forall_app in H as [H _].
Qed.

(** An infeasible pattern is found in no subject over the allowed
    characters. *)
Lemma test_infeasible allowed r s :
  feasible allowed r = false -> Forall (fun x => allowed x = true) s -> test r s = false.
Proof.
  intros Hf Hall. destruct (test r s) eqn:E; [|reflexivity].
  apply test_spec in E. destruct E as [pre [w [post [-> [c M]]]]].
  apply Forall_part in Hall. rewrite (Matches_feasible _ _ _ _ M Hall) in Hf. discriminate.
Qed.


(** ** Groups do not change what a pattern matches *)

Lemma map_snd_withCaptures c l : map snd (map (withCaptures c) l) = map snd l.
Proof. rewrite map_map. apply map_ext. reflexivity. Qed.

Lemma map_snd_flat_map (F G : outcome -> list outcome) (h : list ascii -> list (list ascii)) l1 l2 :
  (forall o, map snd (F o) = h o.2) -> (forall o, map snd (G o) = h o.2) ->
  map snd l1 = map snd l2 ->
  map snd (flat_map F l1) = map snd (flat_map G l2).
Proof.
  intros HF HG. revert l2. induction l1 as [|o l1 IH]; intros [|o' l2] E; try discriminate.
  - reflexivity.
  - simpl in *. injection E as E1 E2. rewrite !map_app, HF, HG, E1. f_equal. now apply IH.
Qed.

Lemma starLoop_ext b1 b2 :
  (forall s, map snd (b1 s) = map snd (b2 s)) ->
  forall k s, map snd (starLoop b1 k s) = map snd (starLoop b2 k s).
Proof.
  intros Hb k. induction k as [|k IH]; intros s; [reflexivity|].
  simpl. rewrite !map_app. f_equal.
  apply map_snd_flat_map with
    (h := fun t => if (length t <? length s)%nat then map snd (starLoop b2 k t) else []).
  - intros o. destruct (length o.2 <? length s)%nat; [|reflexivity].
    now rewrite map_snd_withCaptures, IH.
  - intros o. destruct (length o.2 <? length s)%nat; [|reflexivity].
    now rewrite map_snd_withCaptures.
  - apply Hb.
Qed.

Lemma run_erase r : forall n s, map snd (run (erase r) n s) = map snd (run r n s).
Proof.
  induction r as [|c|k|r1 IH1 r2 IH2|r1 IH1 r2 IH2|r1 IH1|i r1 IH1]; intros n s; simpl;
    try reflexivity.
  - apply map_snd_flat_map with (h := fun t => map snd (run r2 n t)).
    + intros o. now rewrite map_snd_withCaptures, IH2.
    + intros o. now rewrite map_snd_withCaptures.
    + apply IH1.
  - now rewrite !map_app, IH1, IH2.
  - apply starLoop_ext. intros s'. apply IH1.
  - rewrite IH1, map_map. reflexivity.
Qed.

Lemma exec_erase r s : exec (erase r) s = None <-> exec r s = None.
Proof.
  rewrite !exec_None. split; intros H pre suf Hs; specialize (H pre suf Hs);
    pose proof (run_erase r (length suf) suf) as E; rewrite H in E; simpl in E.
  - destruct (run r (length suf) suf); [reflexivity|discriminate].
  - destruct (run (erase r) (length suf) suf); [reflexivity|discriminate].
Qed.

(** The test of a pattern succeeds exactly when the match of the pattern
    with groups gives a result. *)
Lemma test_erase r s : test (erase r) s = true <-> exists c, exec r s = Some c.
Proof.
  unfold test. pose proof (exec_erase r s) as H.
  destruct (exec (erase r) s), (exec r s); split; intros H'; eauto; try discriminate.
  - destruct H as [_ H]. specialize (H eq_refl). discriminate.
  - destruct H as [H _]. specialize (H eq_refl). discriminate.
  - destruct H' as [? ?]. discriminate.
Qed.

End PatternFacts.

Module PairFacts.
Import Text Regex RegexFacts PatternFacts PairDefs Server.

Ltac reassoc := repeat first [rewrite <- app_assoc | rewrite <- app_comm_cons].

Lemma head_In {A} (l : list A) x : head l = Some x -> In x l.
Proof. destruct l; [discriminate|]. intros [= ->]. now left. Qed.

Lemma head_flat_map {A B} (f : A -> list B) l o :
  head (flat_map f l) = Some o -> exists x, In x l /\ head (f x) = Some o.
Proof.
  induction l as [|x l IH]; [discriminate|]. simpl.
  destruct (f x) as [|y ys] eqn:E.
  - simpl. intros H. destruct (IH H) as [x' [? ?]]. exists x'. auto.
  - simpl. intros [= <-]. exists x. rewrite E. auto.
Qed.

Lemma head_cat r1 r2 n s o :
  head (run (Cat r1 r2) n s) = Some o ->
  exists o1 o2, In o1 (run r1 n s) /\ head (run r2 n o1.2) = Some o2 /\ o.2 = o2.2.
Proof.
  simpl. intros H. apply head_flat_map in H. destruct H as [o1 [Hin H]].
  destruct (run r2 n o1.2) as [|o2 l] eqn:E2; [discriminate|]. simpl in H. injection H as <-.
  exists o1, o2. rewrite E2. repeat split; auto.
Qed.

Lemma run_rest_length r n s o : In o (run r n s) -> (length o.2 <= length s)%nat.
Proof.
  intros H. apply run_sound in H. destruct H as [w [E _]].
  apply (f_equal length) in E. rewrite length_app in E. lia.
Qed.

(** The first outcome of a star over a class is the longest run. *)
Lemma head_starLoop_cls k m : forall j s, (length s <= j)%nat ->
  exists t, head (starLoop (run (Cls k) m) j s) = Some ([], t) /\ noneAhead (inClass k) t.
Proof.
  induction j as [|j IH]; intros s Hlen.
  - destruct s; [|simpl in Hlen; lia]. exists []. simpl. auto.
  - destruct s as [|x t].
    + exists []. simpl. auto.
    + cbn [starLoop].
      assert (Hr : run (Cls k) m (x :: t) = if inClass k x then [([], t)] else [])
        by reflexivity.
      rewrite Hr. destruct (inClass k x) eqn:E.
      * cbn [flat_map snd]. destruct (IH t) as [t' [Ht' Hn]]. { simpl in Hlen. lia. }
        replace (length t <? length (x :: t))%nat with true
          by (symmetry; apply Nat.ltb_lt; simpl; lia).
        destruct (starLoop (run (Cls k) m) j t) as [|o l]; [discriminate|].
        simpl in Ht'. injection Ht' as ->. exists t'. split; [reflexivity|exact Hn].
      * exists (x :: t). split; [reflexivity|exact E].
Qed.

Lemma head_plus_cls k n s o :
  (length s <= n)%nat -> head (run (Plus (Cls k)) n s) = Some o -> noneAhead (inClass k) o.2.
Proof.
  intros Hlen H. unfold Plus in H. apply head_cat in H.
  destruct H as [o1 [o2 [Hin [H2 ->]]]].
  pose proof (run_rest_length _ _ _ _ Hin) as Hl.
  change (run (Star (Cls k)) n o1.2) with (starLoop (run (Cls k) n) n o1.2) in H2.
  destruct (head_starLoop_cls k n n o1.2) as [t [Ht Hn]]; [lia|].
  rewrite Ht in H2. injection H2 as <-. exact Hn.
Qed.

Lemma head_map {A B} (f : A -> B) l : head (map f l) = option_map f (head l).
Proof. now destruct l. Qed.

Lemma run_cat_eps r n s :
  run (Cat r Eps) n s = map (fun o => (o.1 ++ [], o.2)) (run r n s).
Proof.
  simpl. induction (run r n s) as [|o l IH]; [reflexivity|]. simpl. now rewrite IH.
Qed.

Lemma head_final i k n s o :
  (length s <= n)%nat -> head (run (Cat (Grp i (Plus (Cls k))) Eps) n s) = Some o ->
  noneAhead (inClass k) o.2.
Proof.
  intros Hlen H. rewrite run_cat_eps in H.
  change (run (Grp i (Plus (Cls k))) n s)
    with (map (fun o : outcome => ((i, take (length s - length o.2) s) :: o.1, o.2))
              (run (Plus (Cls k)) n s)) in H.
  rewrite !head_map in H.
  destruct (head (run (Plus (Cls k)) n s)) as [o1|] eqn:E; [|discriminate].
  simpl in H. injection H as <-. simpl. eapply head_plus_cls; eauto.
Qed.

(** The first outcome of the pattern of a pair reads the second number to
    its last digit. *)
Lemma head_pair_greedy op n s o :
  (length s <= n)%nat -> head (run (rePairGroups op) n s) = Some o -> noneAhead isDigit o.2.
Proof.
  intros Hlen H. unfold rePairGroups, Seq in H. cbn [fold_right] in H.
  apply head_cat in H. destruct H as [o1 [p1 [Hin1 [H ->]]]].
  pose proof (run_rest_length _ _ _ _ Hin1) as L1.
  apply head_cat in H. destruct H as [o2 [p2 [Hin2 [H ->]]]].
  pose proof (run_rest_length _ _ _ _ Hin2) as L2.
  apply head_cat in H. destruct H as [o3 [p3 [Hin3 [H ->]]]].
  pose proof (run_rest_length _ _ _ _ Hin3) as L3.
  apply head_cat in H. destruct H as [o4 [p4 [Hin4 [H ->]]]].
  pose proof (run_rest_length _ _ _ _ Hin4) as L4.
  apply (head_final 2 Digit n o4.2); [lia|exact H].
Qed.

(** ** Inversion of the words of the building blocks *)

Lemma Matches_Eps w c : Matches Eps w c -> w = [] /\ c = [].
Proof. inversion 1; auto. Qed.

Lemma Matches_Chr x w c : Matches (Chr x) w c -> w = [x] /\ c = [].
Proof. inversion 1; auto. Qed.

Lemma Matches_Cls k w c : Matches (Cls k) w c -> exists x, w = [x] /\ c = [] /\ inClass k x = true.
Proof. inversion 1; subst; eauto. Qed.

Lemma Matches_Cat r1 r2 w c :
  Matches (Cat r1 r2) w c ->
  exists w1 w2 c1 c2, w = w1 ++ w2 /\ c = c1 ++ c2 /\ Matches r1 w1 c1 /\ Matches r2 w2 c2.
Proof. inversion 1; subst. do 4 eexists. eauto. Qed.

Lemma Matches_Grp i r w c :
  Matches (Grp i r) w c -> exists c', c = (i, w) :: c' /\ Matches r w c'.
Proof. inversion 1; subst. eauto. Qed.

Lemma Matches_star_cls k w c :
  Matches (Star (Cls k)) w c -> c = [] /\ allOf (inClass k) w.
Proof.
  intros H. remember (Star (Cls k)) as r eqn:E. induction H; try discriminate.
  - split; [reflexivity|constructor].
  - injection E as ->. destruct (IHMatches2 eq_refl) as [-> H2].
    apply Matches_Cls in H. destruct H as [x [-> [-> Hx]]].
    split; [reflexivity|]. constructor; assumption.
Qed.

Lemma Matches_plus_cls k w c :
  Matches (Plus (Cls k)) w c -> c = [] /\ w <> [] /\ allOf (inClass k) w.
Proof.
  intros H. apply Matches_Cat in H. destruct H as [w1 [w2 [c1 [c2 [-> [-> [H1 H2]]]]]]].
  apply Matches_Cls in H1. destruct H1 as [x [-> [-> Hx]]].
  apply Matches_star_cls in H2. destruct H2 as [-> H2].
  repeat split; [discriminate|]. constructor; assumption.
Qed.

Lemma star_cls_Matches k w : allOf (inClass k) w -> Matches (Star (Cls k)) w [].
Proof.
  induction 1 as [|x w Hx _ IH]; [constructor|].
  change (x :: w) with ([x] ++ w).
  change (@nil (nat * list ascii)) with (@nil (nat * list ascii) ++ []).
  constructor; [now constructor|assumption].
Qed.

Lemma plus_cls_Matches k w : w <> [] -> allOf (inClass k) w -> Matches (Plus (Cls k)) w [].
Proof.
  intros Hne H. destruct H as [|x w Hx H]; [congruence|].
  change (x :: w) with ([x] ++ w).
  change (@nil (nat * list ascii)) with (@nil (nat * list ascii) ++ []).
  constructor; [now constructor|now apply star_cls_Matches].
Qed.

(** The words of the pattern of a pair, and what its groups hold. *)
Lemma Matches_pair op w c :
  Matches (rePairGroups op) w c <->
  exists a ws1 ws2 b,
    w = a ++ ws1 ++ op :: ws2 ++ b /\ c = [(1%nat, a); (2%nat, b)] /\
    a <> [] /\ b <> [] /\ allOf isDigit a /\ allOf isDigit b /\
    allOf isSpace ws1 /\ allOf isSpace ws2.
Proof.
  unfold rePairGroups, Seq. cbn [fold_right]. split.
  - intros H.
    apply Matches_Cat in H. destruct H as [a [w1 [ca [c1 [-> [-> [Ha H]]]]]]].
    apply Matches_Grp in Ha. destruct Ha as [ca' [-> Ha]].
    apply Matches_plus_cls in Ha. destruct Ha as [-> [Hane Ha]].
    apply Matches_Cat in H. destruct H as [ws1 [w2 [cs1 [c2 [-> [-> [Hs1 H]]]]]]].
    apply Matches_star_cls in Hs1. destruct Hs1 as [-> Hs1].
    apply Matches_Cat in H. destruct H as [o [w3 [co [c3 [-> [-> [Ho H]]]]]]].
    apply Matches_Chr in Ho. destruct Ho as [-> ->].
    apply Matches_Cat in H. destruct H as [ws2 [w4 [cs2 [c4 [-> [-> [Hs2 H]]]]]]].
    apply Matches_star_cls in Hs2. destruct Hs2 as [-> Hs2].
    apply Matches_Cat in H. destruct H as [b [w5 [cb [c5 [-> [-> [Hb H]]]]]]].
    apply Matches_Grp in Hb. destruct Hb as [cb' [-> Hb]].
    apply Matches_plus_cls in Hb. destruct Hb as [-> [Hbne Hb]].
    apply Matches_Eps in H. destruct H as [-> ->].
    exists a, ws1, ws2, b. simpl. rewrite app_nil_r. repeat split; auto.
  - intros [a [ws1 [ws2 [b [-> [-> [Hane [Hbne [Ha [Hb [Hs1 Hs2]]]]]]]]]]].
    change [(1%nat, a); (2%nat, b)] with
      ([(1%nat, a)] ++ [] ++ [] ++ [] ++ [(2%nat, b)] ++ []).
    replace (a ++ ws1 ++ op :: ws2 ++ b) with (a ++ ws1 ++ [op] ++ ws2 ++ b ++ [])
      by (now rewrite app_nil_r).
    apply MCat; [apply (MGrp 1 _ a []); now apply plus_cls_Matches|].
    apply MCat; [now apply star_cls_Matches|].
    apply MCat; [apply MChr|].
    apply MCat; [now apply star_cls_Matches|].
    apply MCat; [apply (MGrp 2 _ b []); now apply plus_cls_Matches|apply MEps].
Qed.

(** What [match] reports for the pattern of a pair is the first pair of
    the subject. *)
Lemma exec_pair op s c :
  exec (rePairGroups op) s = Some c ->
  exists a b, c = [(1%nat, a); (2%nat, b)] /\ FirstPair op s a b.
Proof.
  intros H. apply exec_Some in H. destruct H as [pre [suf [o [Hs [Ho [<- Hfirst]]]]]].
  pose proof (head_pair_greedy op _ _ _ (Nat.le_refl _) Ho) as Hg.
  apply head_In in Ho. apply run_sound in Ho. destruct Ho as [w [Ew M]].
  apply Matches_pair in M.
  destruct M as [a [ws1 [ws2 [b [-> [Hc [Hane [Hbne [Ha [Hb [Hs1 Hs2]]]]]]]]]]].
  exists a, b. split; [assumption|]. exists pre, o.2. repeat split.
  - exists ws1, ws2. repeat split; auto. rewrite Hs, Ew. now reassoc.
  - exact Hg.
  - intros pre' a' b' post' [ws1' [ws2' [Hs' [Hane' [Hbne' [Ha' [Hb' [Hs1' Hs2']]]]]]]].
    destruct (Nat.le_gt_cases (length pre) (length pre')) as [|Hlt]; [assumption|].
    exfalso.
    specialize (Hfirst pre' (a' ++ ws1' ++ op :: ws2' ++ b' ++ post') Hs' Hlt).
    assert (M : Matches (rePairGroups op) (a' ++ ws1' ++ op :: ws2' ++ b')
                  [(1%nat, a'); (2%nat, b')]).
    { apply Matches_pair. exists a', ws1', ws2', b'. repeat split; auto. }
    destruct (run_complete _ _ _ M
                (length (a' ++ ws1' ++ op :: ws2' ++ b' ++ post')) post') as [c' Hc'].
    { apply Nat.eq_le_incl. f_equal. now reassoc. }
    replace ((a' ++ ws1' ++ op :: ws2' ++ b') ++ post')
      with (a' ++ ws1' ++ op :: ws2' ++ b' ++ post') in Hc'
      by (now reassoc).
    rewrite Hfirst in Hc'. contradiction.
Qed.

Lemma erase_rePairGroups op : erase (rePairGroups op) = rePair op.
Proof. reflexivity. Qed.

(** When the test of an arithmetic rule succeeds its match has both
    groups, which hold the first pair. *)
Lemma test_pair op s :
  test (rePair op) s = true ->
  exists a b, exec (rePairGroups op) s = Some [(1%nat, a); (2%nat, b)] /\ FirstPair op s a b.
Proof.
  rewrite <- erase_rePairGroups. intros H. apply test_erase in H. destruct H as [c Hc].
  destruct (exec_pair _ _ _ Hc) as [a [b [-> HF]]]. eauto.
Qed.

End PairFacts.

Module TextFacts.
Import Text Regex RegexFacts PatternFacts PairDefs PairFacts PhraseDefs Server.

Ltac each_ascii c := destruct c as [[] [] [] [] [] [] [] []].

Lemma lowerChar_idem c : lowerChar (lowerChar c) = lowerChar c.
Proof. each_ascii c; reflexivity. Qed.

Lemma toLowerCase_idem s : toLowerCase (toLowerCase s) = toLowerCase s.
Proof.
  unfold toLowerCase. rewrite map_map. apply map_ext. intros c. apply lowerChar_idem.
Qed.


Lemma isSpace_lowerChar c : isSpace (lowerChar c) = isSpace c.
Proof. each_ascii c; reflexivity. Qed.

Lemma lowerChar_space c : isSpace c = true -> lowerChar c = c.
Proof. each_ascii c; (reflexivity || discriminate). Qed.



Lemma text_chars s : text (chars s) = s.
Proof. apply string_of_list_ascii_of_string. Qed.

(** ** [trim] *)



Lemma trimStart_all_space ws : allOf isSpace ws -> trimStart ws = [].
Proof. induction 1 as [|c ws Hc _ IH]; simpl; [reflexivity|now rewrite Hc]. Qed.



Lemma trim_all_space ws : allOf isSpace ws -> trim ws = [].
Proof.
  intros H. unfold trim, trimEnd. rewrite (trimStart_all_space ws H). reflexivity.
Qed.

(** ** Literal words *)


Lemma Matches_lit w x c : Matches (lit w) x c -> x = chars w /\ c = [].
Proof.
  unfold lit. revert x c. induction (chars w) as [|a l IH]; simpl; intros x c H.
  - now apply Matches_Eps in H.
  - apply Matches_Cat in H. destruct H as [w1 [w2 [c1 [c2 [-> [-> [H1 H2]]]]]]].
    apply Matches_Chr in H1. destruct H1 as [-> ->].
    apply IH in H2. destruct H2 as [-> ->]. auto.
Qed.


End TextFacts.

Module SessionFacts.
Import Text Regex Json Arrays PairDefs Server SessionDefs TextFacts.

Lemma sliceFrom_neg {A} (n : nat) (l : list A) :
  (0 < n)%nat -> sliceFrom (- Z.of_nat n) l = mostRecent n l.
Proof.
  intros Hn. unfold sliceFrom, mostRecent, position. f_equal.
  destruct (- Z.of_nat n <? 0)%Z eqn:E; [lia|].
  apply Z.ltb_ge in E. lia.
Qed.

Lemma mostRecent_all {A} (n : nat) (l : list A) : (length l <= n)%nat -> mostRecent n l = l.
Proof.
  intros H. unfold mostRecent. replace (length l - n)%nat with 0%nat by lia. reflexivity.
Qed.

Lemma mostRecent_length {A} (n : nat) (l : list A) :
  length (mostRecent n l) = Nat.min n (length l).
Proof. unfold mostRecent. rewrite length_drop. lia. Qed.


(** What the handler leaves in [history] before storing it. *)
Lemma truncation (h : list Turn) :
  (if (historyLimit <? length h)%nat then sliceFrom (-20) h else h) = mostRecent 20 h.
Proof.
  unfold historyLimit. destruct (20 <? length h)%nat eqn:E.
  - apply (sliceFrom_neg 20). lia.
  - apply Nat.ltb_ge in E. now rewrite mostRecent_all.
Qed.

Lemma truthy_string s : truthy (Some (JStr s)) = negb (String.eqb s "").
Proof. reflexivity. Qed.

Lemma accepted_truthy req message : accepted req message -> truthy (body_message req) = true.
Proof.
  intros [-> Ht]. rewrite truthy_string. destruct (String.eqb_spec message ""); [|reflexivity].
  subst. exfalso. apply Ht. reflexivity.
Qed.

Lemma validate_accepted req message :
  accepted req message -> validate (body_message req) = inr message.
Proof.
  intros Hacc. pose proof (accepted_truthy _ _ Hacc) as Ht.
  destruct Hacc as [Hm Hne]. unfold validate. rewrite Ht, Hm. simpl negb. cbv iota.
  destruct (String.eqb_spec (text (trim (chars message))) ""); [contradiction|reflexivity].
Qed.

Lemma validate_inr req message :
  validate (body_message req) = inr message -> accepted req message.
Proof.
  unfold validate, accepted. destruct (truthy (body_message req)); [|discriminate].
  simpl negb. cbv iota. destruct (body_message req) as [[| | |s| |]|]; try discriminate.
  destruct (String.eqb_spec (text (trim (chars s))) ""); [discriminate|].
  intros [= ->]. auto.
Qed.

Lemma validate_inl req refusal :
  validate (body_message req) = inl refusal ->
  (status refusal = 400 \/ status refusal = 500)%Z.
Proof.
  unfold validate. destruct (truthy (body_message req)); simpl negb; cbv iota.
  - destruct (body_message req) as [[| | |s| |]|]; try (intros [= <-]; now right).
    destruct (String.eqb (text (trim (chars s))) ""); [|discriminate].
    intros [= <-]. now left.
  - intros [= <-]. now left.
Qed.

(** The answer to an accepted request. *)
Lemma chat_accepted cfg rt req store message :
  accepted req message ->
  let old := default [] (store !! sessionIdOf req) in
  let out := generate cfg rt message (old ++ [userTurn message]) in
  chat cfg rt req store =
    {| response := {| status := 200; payload := ChatReply out.2 |};
       conversationHistory :=
         <[sessionIdOf req := mostRecent 20 (old ++ [userTurn message; assistantTurn out.2])]> store;
       sent := out.1 |}.
Proof.
  intros Hacc old out. unfold chat. rewrite (validate_accepted _ _ Hacc).
  fold old. change {| role := user; content := Some message |} with (userTurn message).
  fold out. destruct out as [reqs bot] eqn:Eout. simpl.
  rewrite truncation. rewrite <- app_assoc. reflexivity.
Qed.

(** Any other request leaves the store as it was. *)
Lemma chat_refused cfg rt req store :
  (forall message, ~ accepted req message) ->
  conversationHistory (chat cfg rt req store) = store /\
  sent (chat cfg rt req store) = [] /\
  (status (response (chat cfg rt req store)) = 400 \/
   status (response (chat cfg rt req store)) = 500)%Z.
Proof.
  intros Hno. unfold chat. destruct (validate (body_message req)) as [refusal|message] eqn:E.
  - repeat split. eapply validate_inl; eauto.
  - exfalso. apply (Hno message). now apply validate_inr.
Qed.

Lemma accepted_dec cfg rt req store :
  (exists message, accepted req message) \/
  (conversationHistory (chat cfg rt req store) = store /\
   sent (chat cfg rt req store) = [] /\
   (status (response (chat cfg rt req store)) = 400 \/
    status (response (chat cfg rt req store)) = 500)%Z).
Proof.
  destruct (validate (body_message req)) as [refusal|message] eqn:E.
  - right. apply chat_refused. intros m Hm. apply validate_accepted in Hm. congruence.
  - left. exists message. now apply validate_inr.
Qed.

Lemma blank_not_accepted req message : blank (body_message req) -> ~ accepted req message.
Proof.
  intros [Hb|[s [Hb Hs]]] [Hm Hne]; [congruence|].
  rewrite Hb in Hm. injection Hm as <-. apply Hne.
  now rewrite trim_all_space.
Qed.

(** ** Alternation *)

Lemma alternates_app first h1 h2 :
  alternates first (h1 ++ h2) =
  alternates first h1 &&
  alternates (if Nat.even (length h1) then first else other first) h2.
Proof.
  revert first. induction h1 as [|t h1 IH]; intros first; [reflexivity|].
  cbn [alternates app length]. rewrite IH, Nat.even_succ, <- Nat.negb_even.
  destruct (Nat.even (length h1)); simpl; rewrite <- ?andb_assoc; try reflexivity.
  destruct first; reflexivity.
Qed.

Lemma exchanges_append h message reply :
  exchanges h -> exchanges (h ++ [userTurn message; assistantTurn reply]).
Proof.
  intros [He Ha]. split.
  - rewrite length_app. simpl. rewrite Nat.even_add, He. reflexivity.
  - rewrite alternates_app, Ha, He. reflexivity.
Qed.

Lemma exchanges_drop2 t1 t2 h : exchanges (t1 :: t2 :: h) -> exchanges h.
Proof.
  intros [He Ha]. split.
  - exact He.
  - simpl in Ha. destruct (sameRole (role t1) user), (sameRole (role t2) assistant);
      simpl in Ha; try discriminate. exact Ha.
Qed.

Lemma exchanges_drop k h : exchanges h -> exchanges (drop (2 * k) h).
Proof.
  revert h. induction k as [|k IH]; intros h H; [exact H|].
  replace (2 * S k)%nat with (S (S (2 * k))) by lia.
  destruct h as [|t1 [|t2 h]].
  - exact H.
  - destruct H as [He _]. discriminate.
  - simpl. apply IH. eapply exchanges_drop2; eauto.
Qed.

(** The truncation keeps whole exchanges. *)
Lemma exchanges_mostRecent n h :
  Nat.even n = true -> exchanges h -> exchanges (mostRecent n h).
Proof.
  intros Hn H. unfold mostRecent.
  assert (He : Nat.even (length h - n) = true).
  { destruct H as [He _]. destruct (Nat.le_gt_cases (length h) n) as [Hle|Hgt].
    - replace (length h - n)%nat with 0%nat by lia. reflexivity.
    - rewrite Nat.even_sub by lia. now rewrite He, Hn. }
  apply Nat.even_spec in He. destruct He as [k ->]. now apply exchanges_drop.
Qed.

Lemma reachable_inv cfg (P : list Turn -> Prop) :
  (forall h message reply,
     P h -> P (mostRecent 20 (h ++ [userTurn message; assistantTurn reply]))) ->
  P [] ->
  forall store, reachable cfg store ->
  forall sid h, store !! sid = Some h -> P h.
Proof.
  intros Hstep Hnil store Hreach. induction Hreach as [|rt req store Hreach IH];
    intros sid h Hlook.
  - rewrite lookup_empty in Hlook. discriminate.
  - destruct (accepted_dec cfg rt req store) as [[message Hacc]|[Hsame _]].
    + rewrite (chat_accepted _ _ _ _ _ Hacc) in Hlook. cbn [conversationHistory] in Hlook.
      destruct (decide (sessionIdOf req = sid)) as [Heq|Hne].
      * rewrite Heq, lookup_insert_eq in Hlook. injection Hlook as <-.
        apply Hstep. destruct (store !! sid) as [old|] eqn:E; simpl; eauto.
      * rewrite lookup_insert_ne in Hlook by assumption. eauto.
    + rewrite Hsame in Hlook. eauto.
Qed.

End SessionFacts.

Module FallbackFacts.
Import Text Regex Json Arrays PairDefs Server SessionDefs FallbackDefs TextFacts SessionFacts.

Lemma startsWith_spec s p : startsWith s p = true <-> exists post, s = p ++ post.
Proof.
  revert s. induction p as [|a p IH]; intros s; cbn [startsWith].
  - destruct s; (split; [intros _; eexists; reflexivity|reflexivity]).
  - destruct s as [|b s]; cbn [startsWith].
    + split; [discriminate|]. intros [post H]. discriminate.
    + rewrite andb_true_iff, IH. split.
      * intros [Hab [post ->]]. apply Ascii.eqb_eq in Hab. subst. eauto.
      * intros [post H]. injection H as -> ->. split; [apply Ascii.eqb_refl|eauto].
Qed.

(** [includes] is containment of the word as a substring. *)
Lemma includes_spec s w : includes s (chars w) = true <-> Contains s w.
Proof.
  unfold Contains. induction s as [|c s IH]; cbn [includes].
  - rewrite orb_false_r, startsWith_spec. split.
    + intros [post H]. exists [], post. exact H.
    + intros [pre [post H]]. destruct pre; [eauto|discriminate].
  - rewrite orb_true_iff, IH, startsWith_spec. split.
    + intros [[post H]|[pre [post H]]].
      * exists [], post. exact H.
      * exists (c :: pre), post. simpl. now f_equal.
    + intros [pre [post H]]. destruct pre as [|x pre].
      * left. eauto.
      * right. injection H as -> H. eauto.
Qed.

Lemma includes_false s w : includes s (chars w) = false <-> ~ Contains s w.
Proof.
  rewrite <- includes_spec. destruct (includes s (chars w)); split; congruence.
Qed.

(** ** The random pick *)




(** ** The reading of the provider's answer *)

Lemma readCompletion_content rt data s :
  readCompletion rt data = inr s ->
  exists raw, contentOf data = Some raw /\ s = text (trim (chars raw)).
Proof.
  unfold readCompletion, contentOf.
  destruct (negb (truthy (Some data))); [discriminate|].
  destruct (prop data "choices") as [choices|]; [|discriminate].
  destruct choices as [| | | | |] eqn:Ec; try discriminate;
    rewrite <- Ec in *; clear Ec;
    (destruct (negb (truthy (Some choices))); [discriminate|]);
    (destruct (negb (greaterThanZero rt (prop choices "length"))); [discriminate|]);
    (destruct (first choices) as [choice|]; [|discriminate]);
    (destruct choice as [| | | | |] eqn:Ech; try discriminate;
     rewrite <- Ech in *; clear Ech;
     (destruct (prop choice "message") as [msg|]; [|discriminate]);
     (destruct msg as [| | | | |] eqn:Em; try discriminate;
      rewrite <- Em in *; clear Em;
      (destruct (negb (truthy (Some msg))); [discriminate|]);
      (destruct (prop msg "content") as [[| | |raw| |]|]; try discriminate);
      intros [= <-]; eauto)).
Qed.

(** A call that fails raises an error in [askGroq]. *)
Lemma askGroq_failed cfg rt message history contexts :
  retrieveRelevantContext rt (knowledgeBase cfg) message 1 = Some contexts ->
  failed (fetch rt (requestFor cfg contexts history)) ->
  exists e, askGroq cfg rt message history = ([requestFor cfg contexts history], inl e).
Proof.
  intros Hr Hf. unfold askGroq. rewrite Hr.
  destruct Hf as [|status body Hok|status|status data Hc].
  - eauto.
  - rewrite Hok. destruct (status =? 401)%Z; eauto.
  - destruct (ok status); [eauto|]. destruct (status =? 401)%Z; eauto.
  - destruct (ok status); [|destruct (status =? 401)%Z; eauto].
    destruct (readCompletion rt data) as [e|s] eqn:E; [eauto|].
    apply readCompletion_content in E. destruct E as [raw [E _]]. congruence.
Qed.

End FallbackFacts.

Module NumberFacts.
Import Text Regex Number PairDefs TextFacts.
Local Open Scope Z_scope.










Section Rendering.
Variable render : Q -> list ascii.







End Rendering.

End NumberFacts.

Module RuleFacts.
Import Text Regex Number PairDefs PhraseDefs Server RuleDefs.
Import RegexFacts PatternFacts PairFacts TextFacts.

(** The rule engine, condition by condition. *)
Lemma tryRules_cascade rt message :
  tryRules rt message =
  if ruleTwoPlusTwo message then Some (Some twoPlusTwoReply)
  else if ruleTime message then
    Some (Some ("The current time is " +:+ toLocaleTimeString rt +:+ "."))
  else if ruleDate message then
    Some (Some ("Today's date is " +:+ toLocaleDateString rt +:+ "."))
  else if rulePair "+" message then
    Some (arithmeticReply "+" "+"
            (fun a b => numberToString (renderNearest rt) (add a b)) (lowerOf message))
  else if rulePair "-" message then
    Some (arithmeticReply "-" "-"
            (fun a b => numberToString (renderNearest rt) (sub a b)) (lowerOf message))
  else if rulePair "*" message then
    Some (arithmeticReply "*" "×"
            (fun a b => numberToString (renderNearest rt) (mul a b)) (lowerOf message))
  else if rulePair "/" message then
    Some (arithmeticReply "/" "÷"
            (fun a b => quotientToString (renderNearest rt) (div a b)) (lowerOf message))
  else if ruleWho message then Some (Some whoReply)
  else if ruleHow message then Some (Some howReply)
  else if ruleThank message then Some (Some thankReply)
  else if ruleSuhaira message then Some (Some suhairaReply)
  else None.
Proof. reflexivity. Qed.

(** The conditions are tests of the lower-cased message. *)
Lemma ignoreCase_lower r message :
  testIgnoreCase r (lowerOf message) = test r (lowerOf message).
Proof. unfold testIgnoreCase, lowerOf. now rewrite toLowerCase_idem. Qed.

Lemma wholeIgnoreCase_lower r message :
  testWholeIgnoreCase r (lowerOf message) = testWhole r (lowerOf message).
Proof. unfold testWholeIgnoreCase, lowerOf. now rewrite toLowerCase_idem. Qed.

(** The body of an arithmetic rule, once its test has succeeded. *)
Lemma arithmeticReply_defined op sign compute l :
  test (rePair op) l = true ->
  exists a b,
    FirstPair op l a b /\
    arithmeticReply op sign compute l =
      Some (formatted a sign b (compute (parseInt a) (parseInt b))).
Proof.
  intros H. destruct (test_pair op l H) as [a [b [He HF]]].
  exists a, b. split; [assumption|]. unfold arithmeticReply. rewrite He. reflexivity.
Qed.



End RuleFacts.

Module PhraseFacts.
Import Text Regex Number Json PairDefs PhraseDefs Server SessionDefs RuleDefs.
Import RegexFacts PatternFacts PairFacts TextFacts SessionFacts RuleFacts Examples.





Lemma noneAhead_head p c w : p c = false -> noneAhead p (c :: w).
Proof. auto. Qed.






End PhraseFacts.

Module ArithmeticFacts.
Import Text Regex Number Json PairDefs PhraseDefs Server SessionDefs RuleDefs.
Import RegexFacts PatternFacts PairFacts TextFacts SessionFacts RuleFacts NumberFacts Examples.

Lemma space_notDigit c : isSpace c = true -> notDigit c = true.
Proof. each_ascii c; (reflexivity || discriminate). Qed.

Lemma spaces_notDigit w : allOf isSpace w -> allOf notDigit w.
Proof.
  intros H. unfold allOf. eapply List.Forall_impl; [|exact H]. apply space_notDigit.
Qed.

Lemma spaces_noneAhead w rest :
  allOf isSpace w -> noneAhead isDigit rest -> noneAhead isDigit (w ++ rest).
Proof.
  intros H Hr. destruct H as [|c w Hc _]; [exact Hr|]. simpl.
  apply space_notDigit in Hc. unfold notDigit in Hc. now apply negb_true_iff.
Qed.

Lemma Matches_Alt r1 r2 w c :
  Matches (Alt r1 r2) w c -> Matches r1 w c \/ Matches r2 w c.
Proof. inversion 1; subst; auto. Qed.

(** When two splits of a string differ, the character after the shorter
    prefix lies in the longer one. *)
Lemma shorter_prefix_in (pre pre' r r' : list ascii) x :
  pre ++ r = pre' ++ x :: r' -> (length pre' < length pre)%nat -> In x pre.
Proof.
  revert pre. induction pre' as [|y pre' IH]; intros [|z pre] E Hl; simpl in *; try lia.
  - injection E as -> _. now left.
  - injection E as -> E. right. apply (IH pre); [assumption|lia].
Qed.

(** The words of the pattern of the fixed sum. *)
Lemma twoPlusTwo_words w :
  Accepts reTwoPlusTwo w ->
  exists pre ws1 ws2 post,
    w = pre ++ chars "2" ++ ws1 ++ "+"%char :: ws2 ++ chars "2" ++ post /\
    allOf notDigit pre /\ noneAhead isDigit post /\
    allOf isSpace ws1 /\ allOf isSpace ws2.
Proof.
  intros [c H]. unfold reTwoPlusTwo, Seq, Opt, sp in H. cbn [fold_right] in H.
  apply Matches_Cat in H. destruct H as [pre [w1 [cp [c1 [-> [-> [Hpre H]]]]]]].
  apply Matches_Cat in H. destruct H as [x1 [w2 [? [c2 [-> [-> [H1 H]]]]]]].
  apply Matches_Chr in H1. destruct H1 as [-> ->].
  apply Matches_Cat in H. destruct H as [ws1 [w3 [? [c3 [-> [-> [Hs1 H]]]]]]].
  apply Matches_star_cls in Hs1. destruct Hs1 as [-> Hs1].
  apply Matches_Cat in H. destruct H as [x2 [w4 [? [c4 [-> [-> [H2 H]]]]]]].
  apply Matches_Chr in H2. destruct H2 as [-> ->].
  apply Matches_Cat in H. destruct H as [ws2 [w5 [? [c5 [-> [-> [Hs2 H]]]]]]].
  apply Matches_star_cls in Hs2. destruct Hs2 as [-> Hs2].
  apply Matches_Cat in H. destruct H as [x3 [w6 [? [c6 [-> [-> [H3 H]]]]]]].
  apply Matches_Chr in H3. destruct H3 as [-> ->].
  apply Matches_Cat in H. destruct H as [post [w7 [? [c7 [-> [-> [Hpost H]]]]]]].
  apply Matches_Eps in H. destruct H as [-> ->].
  exists pre, ws1, ws2, post. rewrite app_nil_r. repeat split; auto.
  - apply Matches_Alt in Hpre. destruct Hpre as [Hpre|Hpre].
    + apply Matches_Grp in Hpre. destruct Hpre as [? [_ Hpre]].
      apply Matches_Cat in Hpre. destruct Hpre as [y1 [v1 [? [? [-> [_ [Hy1 Hpre]]]]]]].
      apply Matches_lit in Hy1. destruct Hy1 as [-> _].
      apply Matches_Cat in Hpre. destruct Hpre as [y2 [v2 [? [? [-> [_ [Hy2 Hpre]]]]]]].
      apply Matches_plus_cls in Hy2. destruct Hy2 as [_ [_ Hy2]].
      apply Matches_Cat in Hpre. destruct Hpre as [y3 [v3 [? [? [-> [_ [Hy3 Hpre]]]]]]].
      apply Matches_lit in Hy3. destruct Hy3 as [-> _].
      apply Matches_Cat in Hpre. destruct Hpre as [y4 [v4 [? [? [-> [_ [Hy4 Hpre]]]]]]].
      apply Matches_plus_cls in Hy4. destruct Hy4 as [_ [_ Hy4]].
      apply Matches_Eps in Hpre. destruct Hpre as [-> _].
      unfold allOf. repeat (apply Forall_app; split);
        first [now apply spaces_notDigit | repeat constructor].
    + apply Matches_Eps in Hpre. destruct Hpre as [-> _]. constructor.
  - apply Matches_Alt in Hpost. destruct Hpost as [Hpost|Hpost].
    + apply Matches_Grp in Hpost. destruct Hpost as [? [_ Hpost]].
      apply Matches_Cat in Hpost. destruct Hpost as [y1 [v1 [? [? [-> [_ [Hy1 Hpost]]]]]]].
      apply Matches_star_cls in Hy1. destruct Hy1 as [_ Hy1].
      apply Matches_Cat in Hpost. destruct Hpost as [y2 [v2 [? [? [-> [_ [Hy2 Hpost]]]]]]].
      apply Matches_Chr in Hy2. destruct Hy2 as [-> _].
      apply spaces_noneAhead; [assumption|reflexivity].
    + apply Matches_Eps in Hpost. destruct Hpost as [-> _]. exact I.
Qed.

(** The first pair of a message the fixed sum matches is [2 + 2]. *)
Lemma twoPlusTwo_pair w :
  Accepts reTwoPlusTwo w -> FirstPair "+" w (chars "2") (chars "2").
Proof.
  intros H. destruct (twoPlusTwo_words w H) as [pre [ws1 [ws2 [post [-> [Hpre [Hpost [H1 H2]]]]]]]].
  exists pre, post. repeat split; auto.
  - exists ws1, ws2. repeat split; auto; try discriminate; repeat constructor.
  - intros pre' a' b' post' [ws1' [ws2' [E [Ha [_ [Da _]]]]]].
    destruct (Nat.le_gt_cases (length pre) (length pre')) as [|Hlt]; [assumption|].
    exfalso. destruct a' as [|x a']; [congruence|].
    inversion Da as [|? ? Hx _]; subst.
    assert (Hin : In x pre) by (eapply shorter_prefix_in; [exact E|exact Hlt]).
    unfold allOf in Hpre. rewrite List.Forall_forall in Hpre. specialize (Hpre x Hin).
    unfold notDigit in Hpre. rewrite Hx in Hpre. discriminate.
Qed.

(** A pair in the message makes the test of its rule succeed. *)
Lemma PairAt_test op l pre a b post : PairAt op l pre a b post -> test (rePair op) l = true.
Proof.
  intros [ws1 [ws2 [E [Ha [Hb [Da [Db [H1 H2]]]]]]]].
  rewrite <- erase_rePairGroups. apply test_erase.
  destruct (exec (rePairGroups op) l) as [c|] eqn:Ex; [eauto|]. exfalso.
  assert (Ht : test (rePairGroups op) l = true).
  { apply test_spec. exists pre, (a ++ ws1 ++ op :: ws2 ++ b), post. split.
    - rewrite E. now reassoc.
    - exists [(1%nat, a); (2%nat, b)]. apply Matches_pair.
      exists a, ws1, ws2, b. repeat split; auto. }
  unfold test in Ht. rewrite Ex in Ht. discriminate.
Qed.

Lemma FirstPair_test op l a b : FirstPair op l a b -> test (rePair op) l = true.
Proof. intros [pre [post [H _]]]. eapply PairAt_test; eauto. Qed.

Lemma twoPlusTwo_has_pair message :
  ruleTwoPlusTwo message = true -> rulePair "+" message = true.
Proof.
  unfold ruleTwoPlusTwo, rulePair. rewrite wholeIgnoreCase_lower. intros H.
  apply testWhole_spec in H. apply twoPlusTwo_pair in H. eapply FirstPair_test; eauto.
Qed.

Lemma generate_rule cfg rt message history r :
  tryRules rt message = Some r -> generate cfg rt message history = ([], r).
Proof. intros H. unfold generate. now rewrite H. Qed.

(** A run of characters of a class, followed by a character that is not
    of it, is determined by the string. *)
Lemma run_unique (p : ascii -> bool) a a' r r' :
  allOf p a -> allOf p a' -> noneAhead p r -> noneAhead p r' ->
  a ++ r = a' ++ r' -> a = a' /\ r = r'.
Proof.
  intros Ha. revert a'. induction Ha as [|x a Hx Ha IH]; intros a' Ha' Hr Hr' E.
  - destruct Ha' as [|y a' Hy _]; [auto|]. simpl in E. subst r. simpl in Hr. congruence.
  - destruct Ha' as [|y a' Hy Ha']; simpl in E.
    + subst r'. simpl in Hr'. congruence.
    + injection E as -> E. destruct (IH a' Ha' Hr Hr' E) as [-> ->]. auto.
Qed.

Lemma digit_notSpace c : isDigit c = true -> isSpace c = false.
Proof. each_ascii c; (reflexivity || discriminate). Qed.

(** The first pair of a string is one pair: the numbers of the reply are
    determined by the message. *)
Lemma FirstPair_unique op s a b a' b' :
  isDigit op = false -> isSpace op = false ->
  FirstPair op s a b -> FirstPair op s a' b' -> a = a' /\ b = b'.
Proof.
  intros Hd Hs [pre [post [HP [Hpost Hmin]]]] [pre' [post' [HP' [Hpost' Hmin']]]].
  pose proof (Hmin _ _ _ _ HP') as L1. pose proof (Hmin' _ _ _ _ HP) as L2.
  destruct HP as [ws1 [ws2 [E [Ha [Hb [Da [Db [S1 S2]]]]]]]].
  destruct HP' as [ws1' [ws2' [E' [Ha' [Hb' [Da' [Db' [S1' S2']]]]]]]].
  rewrite E in E'. apply app_inj_1 in E'; [|lia]. destruct E' as [_ E'].
  assert (Hop : forall ws rest, allOf isSpace ws -> noneAhead isDigit (ws ++ op :: rest)).
  { intros ws rest Hw. apply spaces_noneAhead; [assumption|exact Hd]. }
  apply (run_unique isDigit) in E'; auto. destruct E' as [-> E'].
  apply (run_unique isSpace) in E'; auto. destruct E' as [_ E'].
  injection E' as E'.
  assert (Hnum : forall n rest, n <> [] -> allOf isDigit n -> noneAhead isSpace (n ++ rest)).
  { intros n rest Hn Dn. destruct Dn as [|c n Hc _]; [congruence|]. simpl.
    now apply digit_notSpace. }
  apply (run_unique isSpace) in E'; auto. destruct E' as [_ E'].
  apply (run_unique isDigit) in E'; auto. destruct E' as [-> _]. auto.
Qed.

End ArithmeticFacts.

Module RetrievalFacts.
Import Text Arrays Server RetrievalDefs.

Lemma insertSorted_perm x l : Permutation (insertSorted byScore x l) (x :: l).
Proof.
  induction l as [|y l IH]; simpl; [reflexivity|].
  destruct (Qle_bool (byScore x y) 0); [reflexivity|].
  rewrite IH. apply perm_swap.
Qed.

Lemma sort_perm l : Permutation (sort byScore l) l.
Proof.
  induction l as [|x l IH]; simpl; [reflexivity|].
  rewrite insertSorted_perm. now constructor.
Qed.






Lemma scores_in_range rt kb query s :
  In s (scoresOf rt kb query) -> (idx s < length kb)%nat.
Proof.
  unfold scoresOf. intros H. apply in_map_iff in H. destruct H as [i [<- Hi]].
  apply in_seq in Hi. simpl. lia.
Qed.


(** Reading the answers succeeds when every index is one of an entry. *)
Lemma answers_total kb top :
  Forall (fun s => (idx s < length kb)%nat) top ->
  exists answers,
    mapM (fun s => answer <$> kb !! idx s) top = Some answers /\
    Forall2 (answerOf kb) top answers.
Proof.
  induction 1 as [|s top Hs _ [answers [E F]]].
  - exists []. split; [reflexivity|constructor].
  - destruct (lookup_lt_is_Some_2 kb (idx s) Hs) as [entry He].
    exists (answer entry :: answers). split.
    + cbn [mapM]. rewrite He, E. reflexivity.
    + constructor; [|assumption]. exists entry. auto.
Qed.

End RetrievalFacts.

Module InterleavedFacts.
Import Text Json Arrays Server SessionDefs SessionFacts Interleaved.

Lemma contents_push_eq ref turn m :
  (ref < length (arrays m))%nat ->
  contents (push ref turn m) ref = contents m ref ++ [turn].
Proof.
  intros H. unfold contents, push. cbn [arrays].
  destruct (lookup_lt_is_Some_2 (arrays m) ref H) as [a Ha].
  rewrite list_lookup_alter_eq, Ha. reflexivity.
Qed.

Lemma contents_push_ne ref ref' turn m :
  ref <> ref' -> contents (push ref turn m) ref' = contents m ref'.
Proof.
  intros H. unfold contents, push. cbn [arrays]. now rewrite list_lookup_alter_ne.
Qed.

Lemma length_push ref turn m : length (arrays (push ref turn m)) = length (arrays m).
Proof. unfold push. cbn [arrays]. apply length_alter. Qed.

Lemma contents_allocate_old a m ref :
  (ref < length (arrays m))%nat -> contents (allocate a m).2 ref = contents m ref.
Proof.
  intros H. unfold contents, allocate. cbn [snd arrays]. now rewrite lookup_app_l.
Qed.

Lemma contents_allocate_new a m : contents (allocate a m).2 (length (arrays m)) = a.
Proof.
  unfold contents, allocate. cbn [snd arrays].
  rewrite lookup_app_r by lia. now rewrite Nat.sub_diag.
Qed.

(** The view depends on the arrays the map refers to only. *)
Lemma view_ext m m' :
  table m' = table m ->
  (forall sid ref, table m !! sid = Some ref -> contents m' ref = contents m ref) ->
  view m' = view m.
Proof.
  intros Ht Hc. unfold view. rewrite Ht. apply map_eq. intros sid.
  rewrite !lookup_fmap. destruct (table m !! sid) as [ref|] eqn:E; [|reflexivity].
  simpl. f_equal. now apply (Hc sid).
Qed.

Lemma view_lookup m sid : view m !! sid = contents m <$> table m !! sid.
Proof. unfold view. apply lookup_fmap. Qed.

Lemma view_store sid ref m :
  view (store sid ref m) = <[sid := contents m ref]> (contents m <$> table m).
Proof. unfold view, store. cbn [table]. now rewrite fmap_insert. Qed.

Lemma view_update m m' sid ref x :
  table m' = <[sid := ref]> (table m) -> contents m' ref = x ->
  (forall k r, k <> sid -> table m !! k = Some r -> contents m' r = contents m r) ->
  view m' = <[sid := x]> (view m).
Proof.
  intros Ht Hx Hc. apply map_eq. intros k. rewrite view_lookup, Ht.
  destruct (decide (k = sid)) as [->|Hne].
  - rewrite !lookup_insert_eq. simpl. now rewrite Hx.
  - rewrite !lookup_insert_ne by congruence. rewrite view_lookup.
    destruct (table m !! k) as [r|] eqn:E; [|reflexivity]. simpl. f_equal. now apply (Hc k).
Qed.

Lemma wellFormed_update m m' sid ref :
  wellFormed m -> table m' = <[sid := ref]> (table m) ->
  (length (arrays m) <= length (arrays m'))%nat -> (ref < length (arrays m'))%nat ->
  (forall k, k <> sid -> table m !! k <> Some ref) ->
  wellFormed m'.
Proof.
  intros [Hv Hi] Ht Hl Hr Hf. split.
  - intros k r. rewrite Ht. destruct (decide (k = sid)) as [->|Hne].
    + rewrite lookup_insert_eq. intros [= <-]. exact Hr.
    + rewrite lookup_insert_ne by congruence. intros H. apply Hv in H. lia.
  - intros k1 k2 r. rewrite Ht.
    destruct (decide (k1 = sid)) as [->|H1], (decide (k2 = sid)) as [->|H2];
      rewrite ?lookup_insert_eq, ?lookup_insert_ne by congruence; auto.
    + intros [= <-] H. exfalso. now apply (Hf k2).
    + intros H [= <-]. exfalso. now apply (Hf k1).
    + apply Hi.
Qed.

(** X15.  Run without interruption, the handler on the arrays does to the
    view what [chat] does to the store, with the same response and the
    same requests to the provider, and it keeps the memory well formed:
    the map refers to arrays that exist, one for each session. *)
Lemma handle_refines cfg rt req m :
  wellFormed m ->
  wellFormed (handle cfg rt req m).2 /\
  view (handle cfg rt req m).2 = conversationHistory (chat cfg rt req (view m)) /\
  (handle cfg rt req m).1.1 = response (chat cfg rt req (view m)) /\
  (handle cfg rt req m).1.2 = sent (chat cfg rt req (view m)).
Proof.
  intros Hwf. unfold handle, start, chat.
  destruct (validate (body_message req)) as [refusal|message]; [auto|].
  set (sid := sessionIdOf req). set (u := {| role := user; content := Some message |}).
  rewrite view_lookup. destruct Hwf as [Hv Hi].
  destruct (table m !! sid) as [ref|] eqn:E; simpl default.
  - pose proof (Hv _ _ E) as Hr.
    rewrite (contents_push_eq ref u m Hr).
    destruct (generate cfg rt message (contents m ref ++ [u])) as [out reply].
    unfold resume. cbn [history botResponse sessionId requests].
    set (a := {| role := assistant; content := reply |}).
    assert (Hc : contents (push ref a (push ref u m)) ref = (contents m ref ++ [u]) ++ [a]).
    { rewrite contents_push_eq by (rewrite length_push; exact Hr).
      now rewrite contents_push_eq. }
    rewrite Hc.
    assert (Hother : forall k r, k <> sid -> table m !! k = Some r -> r <> ref).
    { intros k r Hk Hkr ->. apply Hk. now apply (Hi k sid ref). }
    destruct (historyLimit <? length ((contents m ref ++ [u]) ++ [a]))%nat.
    + cbn [fst snd]. split; [|split; [|split; reflexivity]].
      * eapply (wellFormed_update m _ sid); [split; eauto|reflexivity| | |].
        -- cbn [store arrays allocate snd]. rewrite length_app, !length_push. lia.
        -- cbn [store arrays allocate snd]. rewrite length_app, !length_push. simpl. lia.
        -- intros k Hk H. apply Hv in H. rewrite !length_push in H. lia.
      * apply (view_update m _ sid (length (arrays (push ref a (push ref u m))))).
        -- reflexivity.
        -- apply (contents_allocate_new _ (push ref a (push ref u m))).
        -- intros k r Hk Hkr. unfold store, contents. cbn [arrays allocate snd].
           pose proof (Hv _ _ Hkr). rewrite lookup_app_l by (rewrite !length_push; lia).
           fold (contents (push ref a (push ref u m)) r).
           rewrite !contents_push_ne; auto; intros Heq; apply (Hother k r Hk Hkr); now symmetry.
    + cbn [fst snd]. split; [|split; [|split; reflexivity]].
      * eapply (wellFormed_update m _ sid); [split; eauto|reflexivity| | |].
        -- cbn [store arrays]. rewrite !length_push. lia.
        -- cbn [store arrays]. rewrite !length_push. lia.
        -- intros k Hk H. now apply (Hother k ref).
      * apply (view_update m _ sid ref).
        -- reflexivity.
        -- exact Hc.
        -- intros k r Hk Hkr. unfold store, contents. cbn [arrays].
           fold (contents (push ref a (push ref u m)) r).
           rewrite !contents_push_ne; auto; intros Heq; apply (Hother k r Hk Hkr); now symmetry.
  - cbn [allocate]. set (n := length (arrays m)).
    assert (Hn : (n < length (arrays (allocate [] m).2))%nat).
    { cbn [allocate snd arrays]. rewrite length_app. simpl. lia. }
    change ({| arrays := arrays m ++ [[]]; table := table m |}) with (allocate [] m).2.
    rewrite (contents_push_eq n u _ Hn). rewrite contents_allocate_new. simpl app.
    destruct (generate cfg rt message [u]) as [out reply].
    unfold resume. cbn [history botResponse sessionId requests].
    set (a := {| role := assistant; content := reply |}).
    assert (Hc : contents (push n a (push n u (allocate [] m).2)) n = [u; a]).
    { rewrite contents_push_eq by (rewrite length_push; exact Hn).
      rewrite contents_push_eq by exact Hn. now rewrite contents_allocate_new. }
    rewrite Hc. change (historyLimit <? length [u; a])%nat with false. cbv iota. cbn [fst snd].
    split; [|split; [|split; reflexivity]].
    + eapply (wellFormed_update m _ sid); [split; eauto|reflexivity| | |].
      * cbn [store arrays]. rewrite !length_push. lia.
      * cbn [store arrays]. rewrite !length_push. exact Hn.
      * intros k Hk H. apply Hv in H. fold n in H. lia.
    + apply (view_update m _ sid n).
      * reflexivity.
      * exact Hc.
      * intros k r Hk Hkr. unfold store. pose proof (Hv _ _ Hkr) as Hr. fold n in Hr.
        change (contents {| arrays := arrays (push n a (push n u (allocate [] m).2));
                            table := <[sid:=n]> (table (push n a (push n u (allocate [] m).2))) |} r)
          with (contents (push n a (push n u (allocate [] m).2)) r).
        rewrite !contents_push_ne by lia. now apply contents_allocate_old.
Qed.

(** X16.  Whatever ran in between, a request that resumes leaves under
    its session an array of at most 20 turns: the most recent ones of the
    array it has been adding to, with its reply at the end. *)
Lemma resume_bounded p m :
  exists h, view (resume p m).2 !! sessionId p = Some h /\ (length h <= 20)%nat /\
    ((history p < length (arrays m))%nat ->
     h = mostRecent 20 (contents m (history p)
                        ++ [{| role := assistant; content := botResponse p |}])).
Proof.
  unfold resume. set (a := {| role := assistant; content := botResponse p |}).
  set (m1 := push (history p) a m).
  assert (Hc : (history p < length (arrays m))%nat ->
               contents m1 (history p) = contents m (history p) ++ [a])
    by apply contents_push_eq.
  pose proof (truncation (contents m1 (history p))) as Ht.
  destruct (historyLimit <? length (contents m1 (history p)))%nat eqn:E.
  - cbn [allocate snd]. rewrite view_store, lookup_insert_eq.
    eexists. split; [reflexivity|].
    pose proof (contents_allocate_new (sliceFrom (-20) (contents m1 (history p))) m1) as Hn.
    cbn [allocate snd] in Hn. rewrite Hn, Ht. split.
    + rewrite mostRecent_length. lia.
    + intros H. now rewrite Hc.
  - cbn [snd]. rewrite view_store, lookup_insert_eq.
    eexists. split; [reflexivity|]. split.
    + apply Nat.ltb_ge in E. exact E.
    + intros H. rewrite Ht. now rewrite Hc.
Qed.

(** X17.  While a request waits, the user turn it has pushed is in the
    array the map holds: a history of 20 turns is read as one of 21 turns
    until the request resumes. *)
Lemma start_visible cfg rt req m message ref :
  wellFormed m -> validate (body_message req) = inr message ->
  table m !! sessionIdOf req = Some ref ->
  view (start cfg rt req m).2 !! sessionIdOf req =
    Some (contents m ref ++ [{| role := user; content := Some message |}]).
Proof.
  intros [Hv _] Hm Href. unfold start. rewrite Hm, Href.
  destruct (generate cfg rt message _) as [out reply]. cbn [snd].
  rewrite view_lookup. change (table (push ref _ m)) with (table m). rewrite Href.
  simpl. f_equal. apply contents_push_eq. now apply (Hv (sessionIdOf req)).
Qed.

End InterleavedFacts.

Module SessionClaims.
Import Text Regex Json Arrays PairDefs Server SessionDefs TextFacts SessionFacts Examples.





(** C10.  With requests handled one after the other, every history in the
    store has an even number of turns whose roles alternate user,
    assistant, ..., starting with a user turn; a request that is answered
    appends one user turn and one assistant turn, and the truncation to
    the last 20 turns keeps both properties. *)
Theorem history_alternates cfg store :
  reachable cfg store ->
  (forall sid h, store !! sid = Some h -> exchanges h) /\
  (forall rt req message,
     accepted req message ->
     exists reply,
       conversationHistory (chat cfg rt req store) !! sessionIdOf req =
         Some (mostRecent 20 (default [] (store !! sessionIdOf req)
                              ++ [userTurn message; assistantTurn reply]))) /\
  (forall h, exchanges h ->
     exchanges (if (historyLimit <? length h)%nat then sliceFrom (-20) h else h)).
Proof.
  intros Hreach. split; [|split].
  - apply (reachable_inv cfg exchanges); auto.
    + intros h m r H. apply exchanges_mostRecent; [reflexivity|].
      now apply exchanges_append.
    + split; reflexivity.
  - intros rt req message Hacc. rewrite (chat_accepted _ _ _ _ _ Hacc).
    cbn [conversationHistory]. rewrite lookup_insert_eq. eauto.
  - intros h H. rewrite truncation. now apply exchanges_mostRecent.
Qed.

Lemma history_alternates_witness :
  let store := conversationHistory (chat noKey offline (say "hello") ∅) in
  store !! "default" = Some [userTurn "hello"; assistantTurn (Some greetingReply)] /\
  forall sid h, store !! sid = Some h -> exchanges h.
Proof.
  split.
  - vm_compute. reflexivity.
  - apply (history_alternates noKey). apply reach_chat. apply reach_start.
Defined.

End SessionClaims.

Module FallbackClaims.
Import Text Regex Json Arrays PairDefs Server SessionDefs FallbackDefs CascadeDefs.
Import TextFacts SessionFacts FallbackFacts Examples.




Lemma generate_masked cfg rt message history sent e :
  tryRules rt message = None -> GROQ_API_KEY cfg = true ->
  askGroq cfg rt message history = (sent, inl e) ->
  generate cfg rt message history = (sent, getSmartFallback rt message).
Proof. intros Hr Hk Ha. unfold generate. now rewrite Hr, Hk, Ha. Qed.

(** C3.  For a message no rule matches, with a key configured: when the
    call to the provider fails (no response, a status that is not a
    success, a body that is not JSON or lacks the content of a first
    choice), and when the provider branch raises any error at all, the
    reply is [getSmartFallback] of the message, the status is 200, and the
    reply is what the history records. *)
Theorem provider_failure_masked cfg rt req store message :
  accepted req message -> GROQ_API_KEY cfg = true -> tryRules rt message = None ->
  let history := default [] (store !! sessionIdOf req) ++ [userTurn message] in
  (exists contexts,
     retrieveRelevantContext rt (knowledgeBase cfg) message 1 = Some contexts /\
     failed (fetch rt (requestFor cfg contexts history)))
  \/ (exists e, (askGroq cfg rt message history).2 = inl e) ->
  response (chat cfg rt req store) =
    {| status := 200; payload := ChatReply (getSmartFallback rt message) |} /\
  conversationHistory (chat cfg rt req store) !! sessionIdOf req =
    Some (mostRecent 20 (history ++ [assistantTurn (getSmartFallback rt message)])).
Proof.
  intros Hacc Hk Hr history Hfail.
  assert (Hraise : exists sent e, askGroq cfg rt message history = (sent, inl e)).
  { destruct Hfail as [[contexts [Hc Hf]]|[e He]].
    - destruct (askGroq_failed cfg rt message history contexts Hc Hf) as [e He]. eauto.
    - destruct (askGroq cfg rt message history) as [sent r]. simpl in He. subst. eauto. }
  destruct Hraise as [sent [e He]].
  rewrite (chat_accepted _ _ _ _ _ Hacc). fold history.
  rewrite (generate_masked _ _ _ _ _ _ Hr Hk He). cbn [fst snd response conversationHistory].
  split; [reflexivity|]. rewrite lookup_insert_eq. unfold history.
  now rewrite <- app_assoc.
Qed.

Lemma provider_failure_masked_witness :
  response (chat withKey offline (say "zzz") ∅) =
    {| status := 200;
       payload := ChatReply (Some "🙏 Thanks for sharing that with me. What's on your mind?") |}.
Proof.
  refine (proj1 (provider_failure_masked withKey offline (say "zzz") ∅ "zzz" _ _ _ _)).
  - split; [reflexivity|]. vm_compute. discriminate.
  - reflexivity.
  - vm_compute. reflexivity.
  - left. exists []. split; [reflexivity|]. apply failed_network.
Defined.

(** The provider branch on four answers: a completion is trimmed and
    returned; a refusal, a body that is not JSON and a body without
    choices are answered with the fallback. *)
Example provider_examples :
  let generic := Some "🙏 Thanks for sharing that with me. What's on your mind?" in
  let reply result := response (chat withKey (answering result) (say "zzz") ∅) in
  reply (Responded 200 (Parsed completion)) =
    {| status := 200; payload := ChatReply (Some "Paris.") |} /\
  reply (Responded 429 (Parsed completion)) = {| status := 200; payload := ChatReply generic |} /\
  reply (Responded 401 Unparsable) = {| status := 200; payload := ChatReply generic |} /\
  reply (Responded 200 Unparsable) = {| status := 200; payload := ChatReply generic |} /\
  reply (Responded 200 (Parsed noChoices)) = {| status := 200; payload := ChatReply generic |} /\
  length (sent (chat withKey (answering (Responded 200 (Parsed completion))) (say "zzz") ∅))
    = 1%nat.
Proof. repeat split; vm_compute; reflexivity. Qed.





End FallbackClaims.

Module PhraseClaims.
Import Text Regex Number Json PairDefs PhraseDefs Server SessionDefs RuleDefs.
Import RegexFacts PatternFacts PairFacts TextFacts SessionFacts RuleFacts Examples PhraseFacts.



End PhraseClaims.

Module ArithmeticClaims.
Import Text Regex Number Json PairDefs PhraseDefs Server SessionDefs RuleDefs.
Import RegexFacts PatternFacts PairFacts TextFacts SessionFacts RuleFacts NumberFacts Examples.
Import ArithmeticFacts.
Local Open Scope Z_scope.



(** The example of the specification, and a message with two additions. *)
Lemma addition_examples rt :
  tryRules rt "12 + 7" = Some (Some "12 + 7 = 19") /\
  tryRules rt "add 12 + 7 and 3 + 4" = Some (Some "12 + 7 = 19") /\
  tryRules rt "What is 2+2" = Some (Some "2 + 2 = 4") /\
  tryRules rt "007+3" = Some (Some "007 + 3 = 10").
Proof. repeat split; reflexivity. Qed.


(** Nor is the result the sum of the integers beyond [2^53]: the operands
    and the sum are rounded. *)
Lemma addition_rounds rt :
  tryRules rt "9007199254740993 + 1" = Some (Some "9007199254740993 + 1 = 9007199254740992").
Proof. reflexivity. Qed.



(** The replies of the three rules on examples; only the first pair of a
    message counts. *)
Lemma arithmetic_examples rt :
  tryRules rt "3 - 10" = Some (Some "3 - 10 = -7") /\
  tryRules rt "12*12" = Some (Some "12 × 12 = 144") /\
  tryRules rt "84 / 4" = Some (Some "84 ÷ 4 = 21") /\
  tryRules rt "5/0" = Some (Some "5 ÷ 0 = Infinity") /\
  tryRules rt "0 / 0" = Some (Some "0 ÷ 0 = NaN") /\
  tryRules rt "1 - 2 - 3" = Some (Some "1 - 2 = -1") /\
  tryRules rt "9 / 3 then 8 / 0" = Some (Some "9 ÷ 3 = 3").
Proof. repeat split; reflexivity. Qed.

End ArithmeticClaims.

Module RetrievalClaims.
Import Text Arrays Server RetrievalDefs RetrievalFacts Examples.



End RetrievalClaims.

(* ===================================================================== *)
(** * Further properties of the handler, the rules and the endpoints *)
(* ===================================================================== *)

Module HandlerFacts.
Import Text Regex Json Arrays PairDefs Server SessionDefs HandlerDefs TextFacts SessionFacts.




Lemma drop_mostRecent {A} (old new : list A) n :
  (length new <= n)%nat ->
  mostRecent n (old ++ new) = drop (length old + length new - n) old ++ new.
Proof.
  intros H. unfold mostRecent. rewrite length_app.
  rewrite drop_app_le by lia. reflexivity.
Qed.

End HandlerFacts.

Module HandlerProperties.
Import Text Regex Json Arrays PairDefs Server SessionDefs HandlerDefs.
Import TextFacts SessionFacts HandlerFacts Examples.
Local Open Scope Z_scope.


Example request_status_examples :
  let st v :=
    status (response (chat noKey offline {| body_message := v; header_session_id := None |} ∅)) in
  st None = 400 /\ st (Some JNull) = 400 /\ st (Some (JBool false)) = 400 /\
  st (Some (JNum 0)) = 400 /\ st (Some (JStr "")) = 400 /\ st (Some (JStr "   ")) = 400 /\
  st (Some (JNum 5)) = 500 /\ st (Some (JBool true)) = 500 /\ st (Some (JArr [])) = 500 /\
  st (Some (JObj [("text", JStr "hello")])) = 500 /\
  st (Some (JStr " hello ")) = 200.
Proof. repeat split; vm_compute; reflexivity. Qed.

(** X2.  Sessions are isolated: a request changes no history but that of
    its own session, and neither its answer nor what it sends to the
    provider depends on the history of another session. *)
Theorem sessions_isolated cfg rt req store sid :
  sid <> sessionIdOf req ->
  conversationHistory (chat cfg rt req store) !! sid = store !! sid /\
  (forall h,
     response (chat cfg rt req (<[sid := h]> store)) = response (chat cfg rt req store) /\
     sent (chat cfg rt req (<[sid := h]> store)) = sent (chat cfg rt req store)) /\
  response (chat cfg rt req (delete sid store)) = response (chat cfg rt req store).
Proof.
  intros Hne. unfold chat.
  destruct (validate (body_message req)) as [refusal|message]; [auto|].
  split; [|split].
  - destruct (generate cfg rt message _) as [requests botResponse]. cbn.
    now rewrite lookup_insert_ne by congruence.
  - intros h. rewrite lookup_insert_ne by congruence.
    destruct (generate cfg rt message _) as [requests botResponse]. auto.
  - rewrite lookup_delete_ne by congruence.
    destruct (generate cfg rt message _) as [requests botResponse]. auto.
Qed.

Lemma sessions_isolated_witness :
  let store : gmap string (list Turn) :=
    {[ "ann" := [userTurn "hi"; assistantTurn (Some greetingReply)] ]} in
  let req := {| body_message := Some (JStr "bye"); header_session_id := Some "bob" |} in
  conversationHistory (chat noKey offline req store) !! "ann" =
    Some [userTurn "hi"; assistantTurn (Some greetingReply)].
Proof.
  intros store req.
  refine (proj1 (sessions_isolated noKey offline req store "ann" _)).
  vm_compute. discriminate.
Defined.

(** X3.  What [POST /api/chat] answers is what [GET /api/history] then
    reads: the history of the session ends with the message as it was
    sent and the reply as it was returned, after turns that were the end
    of the history before. *)
Theorem history_round_trip cfg rt req store message :
  accepted req message ->
  exists reply dropped kept,
    payload (response (chat cfg rt req store)) = ChatReply reply /\
    getHistory req store = dropped ++ kept /\
    getHistory req (conversationHistory (chat cfg rt req store)) =
      kept ++ [userTurn message; assistantTurn reply].
Proof.
  intros Hacc. rewrite (chat_accepted _ _ _ _ _ Hacc). cbn [response payload conversationHistory].
  unfold getHistory. rewrite lookup_insert_eq. cbn [default].
  set (old := default [] (store !! sessionIdOf req)).
  set (reply := (generate cfg rt message (old ++ [userTurn message])).2).
  exists reply, (take (length old + 2 - 20) old), (drop (length old + 2 - 20) old).
  split; [reflexivity|]. split; [now rewrite take_drop|].
  now rewrite (drop_mostRecent old [userTurn message; assistantTurn reply] 20) by (simpl; lia).
Qed.

Lemma history_round_trip_witness :
  exists reply dropped kept,
    payload (response (chat noKey offline (say "hello") ∅)) = ChatReply reply /\
    getHistory (say "hello") ∅ = dropped ++ kept /\
    getHistory (say "hello") (conversationHistory (chat noKey offline (say "hello") ∅)) =
      kept ++ [userTurn "hello"; assistantTurn reply].
Proof.
  apply (history_round_trip noKey offline (say "hello") ∅ "hello").
  split; [reflexivity|]. vm_compute. discriminate.
Defined.

End HandlerProperties.

Module ProviderFacts.
Import Text Regex Json Arrays PairDefs Server SessionDefs FallbackDefs RetrievalDefs.
Import TextFacts SessionFacts FallbackFacts RetrievalFacts HandlerFacts.

(** [retrieveRelevantContext] raises no error, whatever the count asked
    for: every score it keeps is that of an entry. *)
Lemma retrieve_bounds rt kb query topK :
  exists answers,
    retrieveRelevantContext rt kb query topK = Some answers /\
    (length answers <= position (length kb) topK)%nat /\
    Forall (fun a => exists entry, In entry kb /\ a = answer entry) answers.
Proof.
  destruct kb as [|entry0 kb'] eqn:Ekb.
  - exists []. repeat split; [simpl; lia|constructor].
  - rewrite <- Ekb. set (ranked := sort byScore (scoresOf rt kb query)).
    assert (Hperm : Permutation ranked (scoresOf rt kb query)) by apply sort_perm.
    assert (Hlen : length ranked = length kb).
    { rewrite (Permutation_length Hperm). unfold scoresOf.
      now rewrite length_map, length_seq. }
    set (top := List.filter positive (sliceTo topK ranked)).
    assert (Hrange : Forall (fun s => (idx s < length kb)%nat) top).
    { rewrite List.Forall_forall. intros s Hs. apply filter_In in Hs. destruct Hs as [Hs _].
      apply (scores_in_range rt kb query). apply (Permutation_in _ Hperm).
      unfold sliceTo in Hs.
      rewrite <- (firstn_skipn (position (length ranked) topK) ranked).
      apply in_or_app. now left. }
    destruct (answers_total kb top Hrange) as [answers [E F]].
    exists answers. split; [|split].
    + unfold retrieveRelevantContext.
      replace (length kb =? 0)%nat with false by (rewrite Ekb; reflexivity). exact E.
    + rewrite <- (Forall2_length _ _ _ F). unfold top.
      etransitivity; [apply filter_length_le|].
      unfold sliceTo. rewrite length_take, Hlen. lia.
    + clear E. induction F as [|s a top' answers' [entry [He ->]] _ IH]; constructor.
      * exists entry. split; [|reflexivity].
        apply list_elem_of_In. eapply list_elem_of_lookup_2; eauto.
      * apply IH. now inversion Hrange.
Qed.

(** The context of the prompt: at most one answer. *)
Lemma retrieve_one rt kb query :
  retrieveRelevantContext rt kb query 1 = Some [] \/
  exists entry, In entry kb /\ retrieveRelevantContext rt kb query 1 = Some [answer entry].
Proof.
  destruct (retrieve_bounds rt kb query 1) as [answers [E [Hl Hf]]].
  assert (Hp : (position (length kb) 1 <= 1)%nat) by (unfold position; simpl; lia).
  destruct answers as [|a [|b answers]]; [now left| |simpl in Hl; lia].
  right. inversion Hf as [|? ? [entry [Hin ->]] _]; subst. eauto.
Qed.

Lemma sent_generate cfg rt message history :
  (generate cfg rt message history).1 = [] \/
  (tryRules rt message = None /\ GROQ_API_KEY cfg = true /\
   exists contexts,
     retrieveRelevantContext rt (knowledgeBase cfg) message 1 = Some contexts /\
     (generate cfg rt message history).1 = [requestFor cfg contexts history]).
Proof.
  unfold generate. destruct (tryRules rt message); [now left|].
  destruct (GROQ_API_KEY cfg); [|now left]. right. split; [reflexivity|]. split; [reflexivity|].
  unfold askGroq.
  destruct (retrieve_bounds rt (knowledgeBase cfg) message 1) as [contexts [E _]].
  rewrite E. exists contexts. split; [reflexivity|].
  destruct (match fetch rt _ with Rejected => _ | Responded _ _ => _ end); reflexivity.
Qed.

Lemma positive_length n : Qle_bool (inject_Z (Z.of_nat (S n))) 0 = false.
Proof.
  unfold Qle_bool, inject_Z. cbn [Qnum Qden]. apply Z.leb_gt. lia.
Qed.

(** A completion of the shape the provider documents is read. *)
Lemma readCompletion_shape rt data choice rest msg raw :
  prop data "choices" = Some (JArr (choice :: rest)) ->
  prop choice "message" = Some msg -> prop msg "content" = Some (JStr raw) ->
  readCompletion rt data = inr (text (trim (chars raw))).
Proof.
  intros Hc Hm Hr. unfold readCompletion. rewrite Hc.
  assert (Hd : truthy (Some data) = true).
  { destruct data as [| | |s|items|fields]; simpl in Hc; try discriminate; reflexivity. }
  rewrite Hd. cbn [negb truthy prop first head]. cbv iota.
  change (String.eqb "length" "length") with true. cbv iota.
  cbn [greaterThanZero length]. rewrite positive_length. cbn [negb]. cbv iota.
  assert (Hch : choice <> JNull) by (intros ->; discriminate).
  assert (Hmsg : exists fields, msg = JObj fields).
  { destruct msg as [| | |s|items|fields]; simpl in Hr; try discriminate; eauto. }
  destruct Hmsg as [fields ->].
  destruct choice; try congruence; rewrite Hm; cbn [truthy negb]; cbv iota; now rewrite Hr.
Qed.

End ProviderFacts.

Module ProviderProperties.
Import Text Regex Json Arrays PairDefs Server SessionDefs FallbackDefs RetrievalDefs.
Import TextFacts SessionFacts FallbackFacts RetrievalFacts HandlerFacts ProviderFacts Examples.
Local Open Scope Z_scope.

(** X4.  A request contacts the provider at most once, and only when its
    message is accepted, no rule matches it and a key that is not the
    empty string is configured. *)
Theorem provider_contact cfg rt req store :
  (length (sent (chat cfg rt req store)) <= 1)%nat /\
  (sent (chat cfg rt req store) <> [] ->
   exists message key,
     accepted req message /\ tryRules rt message = None /\
     env_GROQ_API_KEY cfg = Some key /\ key <> "").
Proof.
  destruct (accepted_dec cfg rt req store) as [[message Hacc]|[_ [Hs _]]].
  - rewrite (chat_accepted _ _ _ _ _ Hacc). cbn [sent].
    destruct (sent_generate cfg rt message
                (default [] (store !! sessionIdOf req) ++ [userTurn message]))
      as [E|[Hr [Hk [contexts [_ E]]]]]; rewrite E.
    + split; [simpl; lia|congruence].
    + split; [simpl; lia|]. intros _. unfold GROQ_API_KEY, nonEmpty in Hk.
      destruct (env_GROQ_API_KEY cfg) as [key|]; [|discriminate].
      exists message, key. split; [assumption|]. split; [assumption|]. split; [reflexivity|].
      intros ->. discriminate.
  - rewrite Hs. split; [simpl; lia|congruence].
Qed.

(** X5.  What is sent to the provider: the system message, then at most
    one message with the answer of an entry of the knowledge base, then
    the last turns of the history of the session, nine at most, then the
    message of the request; twelve messages at most, for the same model
    and limits each time. *)
Theorem provider_request_shape cfg rt req store r :
  In r (sent (chat cfg rt req store)) ->
  exists message context dropped recent,
    accepted req message /\
    messages r =
      {| role := system; content := Some (SYSTEM_MESSAGE cfg) |}
      :: context ++ recent ++ [userTurn message] /\
    (context = [] \/
     exists entry, In entry (knowledgeBase cfg) /\
       context = [{| role := system; content := Some ("Relevant info: " +:+ answer entry) |}]) /\
    getHistory req store = dropped ++ recent /\ (length recent <= 9)%nat /\
    (length (messages r) <= 12)%nat /\
    model r = "llama-3.3-70b-versatile" /\ max_tokens r = 500 /\
    (temperature r == 7 # 10)%Q.
Proof.
  intros Hin.
  destruct (accepted_dec cfg rt req store) as [[message Hacc]|[_ [Hs _]]];
    [|rewrite Hs in Hin; contradiction].
  rewrite (chat_accepted _ _ _ _ _ Hacc) in Hin. cbn [sent] in Hin.
  set (old := default [] (store !! sessionIdOf req)) in *.
  destruct (sent_generate cfg rt message (old ++ [userTurn message]))
    as [E|[_ [_ [contexts [Hc E]]]]]; rewrite E in Hin; [contradiction|].
  destruct Hin as [<-|[]].
  set (k := (length old + 1 - 10)%nat).
  assert (Hrecent : sliceFrom (-10) (old ++ [userTurn message]) = drop k old ++ [userTurn message]).
  { rewrite (sliceFrom_neg 10) by lia. apply drop_mostRecent. simpl. lia. }
  assert (Hlen : (length (drop k old) <= 9)%nat) by (rewrite length_drop; lia).
  exists message.
  destruct (retrieve_one rt (knowledgeBase cfg) message) as [H0|[entry [He H1]]].
  - rewrite H0 in Hc. injection Hc as <-.
    exists [], (take k old), (drop k old).
    split; [assumption|]. unfold requestFor. cbn [messages model max_tokens temperature length].
    change (0 <? 0)%nat with false. cbv iota. change (String.eqb "" "") with true. cbv iota.
    rewrite Hrecent. repeat split; auto.
    + unfold getHistory. fold old. now rewrite take_drop.
    + simpl. rewrite length_app. simpl. lia.
  - rewrite H1 in Hc. injection Hc as <-.
    exists [{| role := system; content := Some ("Relevant info: " +:+ answer entry) |}],
      (take k old), (drop k old).
    split; [assumption|]. unfold requestFor. cbn [messages model max_tokens temperature length join].
    change (0 <? 1)%nat with true. cbv iota.
    change (String.eqb ("Relevant info: " +:+ answer entry) "") with false. cbv iota.
    rewrite Hrecent. repeat split; eauto.
    + unfold getHistory. fold old. now rewrite take_drop.
    + simpl. rewrite length_app. simpl. lia.
Qed.

Lemma provider_request_shape_witness :
  exists message context dropped recent,
    accepted (say "zzz") message /\
    messages (requestFor withKey [] [userTurn "zzz"]) =
      {| role := system; content := Some (SYSTEM_MESSAGE withKey) |}
      :: context ++ recent ++ [userTurn message] /\
    (context = [] \/
     exists entry, In entry (knowledgeBase withKey) /\
       context = [{| role := system; content := Some ("Relevant info: " +:+ answer entry) |}]) /\
    getHistory (say "zzz") ∅ = dropped ++ recent /\ (length recent <= 9)%nat /\
    (length (messages (requestFor withKey [] [userTurn "zzz"])) <= 12)%nat /\
    model (requestFor withKey [] [userTurn "zzz"]) = "llama-3.3-70b-versatile" /\
    max_tokens (requestFor withKey [] [userTurn "zzz"]) = 500 /\
    (temperature (requestFor withKey [] [userTurn "zzz"]) == 7 # 10)%Q.
Proof.
  apply (provider_request_shape withKey offline (say "zzz") ∅).
  vm_compute. now left.
Defined.

(** X6.  For a message no rule matches, with a key configured: when the
    provider answers with a success status and a completion whose first
    choice has a message with a string for content, the reply is that
    string with the white space at its ends removed (the empty string
    when there is nothing else in it); it is returned with status 200 and
    recorded in the history, and one request was sent. *)
Theorem provider_reply_returned cfg rt req store message contexts code data choice rest msg raw :
  accepted req message -> GROQ_API_KEY cfg = true -> tryRules rt message = None ->
  let history := default [] (store !! sessionIdOf req) ++ [userTurn message] in
  let reply := Some (text (trim (chars raw))) in
  retrieveRelevantContext rt (knowledgeBase cfg) message 1 = Some contexts ->
  fetch rt (requestFor cfg contexts history) = Responded code (Parsed data) ->
  ok code = true ->
  prop data "choices" = Some (JArr (choice :: rest)) ->
  prop choice "message" = Some msg ->
  prop msg "content" = Some (JStr raw) ->
  response (chat cfg rt req store) = {| status := 200; payload := ChatReply reply |} /\
  sent (chat cfg rt req store) = [requestFor cfg contexts history] /\
  conversationHistory (chat cfg rt req store) !! sessionIdOf req =
    Some (mostRecent 20 (history ++ [assistantTurn reply])).
Proof.
  intros Hacc Hk Hr history reply Hc Hf Hok Hch Hm Hraw.
  rewrite (chat_accepted _ _ _ _ _ Hacc). fold history.
  assert (E : generate cfg rt message history = ([requestFor cfg contexts history], reply)).
  { unfold generate, askGroq. rewrite Hr, Hk, Hc, Hf, Hok.
    now rewrite (readCompletion_shape rt data choice rest msg raw). }
  rewrite E. cbn [fst snd response sent conversationHistory].
  split; [reflexivity|]. split; [reflexivity|].
  rewrite lookup_insert_eq. unfold history. now rewrite <- app_assoc.
Qed.

Lemma provider_reply_returned_witness :
  response (chat withKey (answering (Responded 200 (Parsed completion))) (say "zzz") ∅) =
    {| status := 200; payload := ChatReply (Some "Paris.") |}.
Proof.
  refine (proj1 (provider_reply_returned withKey (answering (Responded 200 (Parsed completion)))
                   (say "zzz") ∅ "zzz" [] 200 completion _ _ _ " Paris. " _ _ _ _ _ _ _ _ _)).
  - split; [reflexivity|]. vm_compute. discriminate.
  - reflexivity.
  - vm_compute. reflexivity.
  - reflexivity.
  - reflexivity.
  - reflexivity.
  - reflexivity.
  - reflexivity.
  - reflexivity.
Defined.

End ProviderProperties.

Module KeywordFacts.
Import Text Regex Number Json PairDefs PhraseDefs Server SessionDefs FallbackDefs RuleDefs.
Import KeywordDefs.
Import RegexFacts PatternFacts PairFacts TextFacts SessionFacts RuleFacts ArithmeticFacts.

Lemma trimStart_lower s : trimStart (toLowerCase s) = toLowerCase (trimStart s).
Proof.
  induction s as [|c s IH]; [reflexivity|].
  cbn [toLowerCase map trimStart]. rewrite isSpace_lowerChar.
  destruct (isSpace c); [exact IH|reflexivity].
Qed.

(** [trim] and [toLowerCase] commute. *)
Lemma trim_lower s : trim (toLowerCase s) = toLowerCase (trim s).
Proof.
  unfold trim, trimEnd. rewrite trimStart_lower.
  unfold toLowerCase at 1. rewrite <- map_rev. fold (toLowerCase (rev (trimStart s))).
  rewrite trimStart_lower. unfold toLowerCase. now rewrite map_rev.
Qed.

Lemma formatted_nonempty a sign b result : formatted a sign b result <> "".
Proof. unfold formatted. destruct (text a); discriminate. Qed.

(** ** What the patterns of the rules find *)






(** ** The conditions of the rules *)







(** The words of the fixed sum are made of the characters of
    [what is 2+2=] and of white space. *)
Lemma fixedSum_alphabet message :
  ruleTwoPlusTwo message = true -> allOf (alphabet reTwoPlusTwo) (lowerOf message).
Proof.
  unfold ruleTwoPlusTwo. rewrite wholeIgnoreCase_lower. intros H.
  apply testWhole_spec in H. destruct H as [c M]. now apply Matches_alphabet in M.
Qed.

(** So the fixed sum is neither a question about the time nor one about
    the date, and it has a pair to add. *)
Lemma fixedSum_spec message :
  ruleTwoPlusTwo message = true ->
  ruleTime message = false /\ ruleDate message = false /\ rulePair "+" message = true.
Proof.
  intros H. pose proof (fixedSum_alphabet message H) as Hall.
  split; [|split; [|now apply twoPlusTwo_has_pair]].
  - unfold ruleTime. rewrite ignoreCase_lower.
    apply (test_infeasible (alphabet reTwoPlusTwo)); [vm_compute; reflexivity|exact Hall].
  - unfold ruleDate. rewrite ignoreCase_lower.
    apply (test_infeasible (alphabet reTwoPlusTwo)); [vm_compute; reflexivity|exact Hall].
Qed.


End KeywordFacts.

Module RuleProperties.
Import Text Regex Number Json PairDefs PhraseDefs Server SessionDefs FallbackDefs RuleDefs.
Import KeywordDefs.
Import RegexFacts PatternFacts PairFacts TextFacts SessionFacts RuleFacts ArithmeticFacts.
Import KeywordFacts Examples.



(** X7.  A rule that matches always has a reply, which is not the empty
    string; the handler returns it with status 200 and sends nothing to
    the provider, with or without a key. *)
Theorem rule_reply_direct rt message r :
  tryRules rt message = Some r ->
  exists s,
    r = Some s /\ s <> "" /\
    forall cfg req store,
      accepted req message ->
      response (chat cfg rt req store) = {| status := 200; payload := ChatReply (Some s) |} /\
      sent (chat cfg rt req store) = [].
Proof.
  intros Hr.
  assert (Hs : exists s, r = Some s /\ s <> "").
  { revert Hr. rewrite tryRules_cascade.
    assert (Harith : forall op sign compute,
               test (rePair op) (lowerOf message) = true ->
               Some (arithmeticReply op sign compute (lowerOf message)) = Some r ->
               exists s, r = Some s /\ s <> "").
    { intros op sign compute Ht [= <-].
      destruct (arithmeticReply_defined op sign compute _ Ht) as [a [b [_ ->]]].
      eexists. split; [reflexivity|apply formatted_nonempty]. }
    destruct (ruleTwoPlusTwo message); [intros [= <-]; eexists; split; [reflexivity|discriminate]|].
    destruct (ruleTime message); [intros [= <-]; eexists; split; [reflexivity|discriminate]|].
    destruct (ruleDate message); [intros [= <-]; eexists; split; [reflexivity|discriminate]|].
    destruct (rulePair "+" message) eqn:E1; [now apply Harith|].
    destruct (rulePair "-" message) eqn:E2; [now apply Harith|].
    destruct (rulePair "*" message) eqn:E3; [now apply Harith|].
    destruct (rulePair "/" message) eqn:E4; [now apply Harith|].
    destruct (ruleWho message); [intros [= <-]; eexists; split; [reflexivity|discriminate]|].
    destruct (ruleHow message); [intros [= <-]; eexists; split; [reflexivity|discriminate]|].
    destruct (ruleThank message); [intros [= <-]; eexists; split; [reflexivity|discriminate]|].
    destruct (ruleSuhaira message); [intros [= <-]; eexists; split; [reflexivity|discriminate]|].
    discriminate. }
  destruct Hs as [s [-> Hne]]. exists s. split; [reflexivity|]. split; [assumption|].
  intros cfg req store Hacc. rewrite (chat_accepted _ _ _ _ _ Hacc).
  rewrite (generate_rule _ _ _ _ _ Hr). split; reflexivity.
Qed.

Lemma rule_reply_direct_witness :
  exists s,
    Some "😊 You're welcome! I'm happy to help." = Some s /\ s <> "" /\
    forall cfg req store,
      accepted req "many thanks" ->
      response (chat cfg offline req store) = {| status := 200; payload := ChatReply (Some s) |} /\
      sent (chat cfg offline req store) = [].
Proof.
  apply (rule_reply_direct offline "many thanks"). vm_compute. reflexivity.
Defined.

(** X8.  The replies of the rules and of the fallback generator do not
    depend on the case of the letters of the message: two messages with
    the same lower-case form get the same reply from each, and so from
    the handler when no key is configured. *)
Theorem replies_ignore_case rt message message' :
  toLowerCase (chars message) = toLowerCase (chars message') ->
  tryRules rt message = tryRules rt message' /\
  getSmartFallback rt message = getSmartFallback rt message' /\
  forall cfg history history',
    GROQ_API_KEY cfg = false ->
    generate cfg rt message history = generate cfg rt message' history'.
Proof.
  intros H.
  assert (Hs : testWholeIgnoreCase reSuhaira (trim (chars message)) =
               testWholeIgnoreCase reSuhaira (trim (chars message'))).
  { unfold testWholeIgnoreCase. now rewrite <- !trim_lower, H. }
  assert (Hr : tryRules rt message = tryRules rt message').
  { unfold tryRules. now rewrite H, Hs. }
  assert (Hf : getSmartFallback rt message = getSmartFallback rt message').
  { unfold getSmartFallback. now rewrite H. }
  split; [assumption|]. split; [assumption|].
  intros cfg history history' Hk. unfold generate. now rewrite Hr, Hf, Hk.
Qed.

Lemma replies_ignore_case_witness :
  tryRules offline "WHAT Is The Time" = tryRules offline "what is the time".
Proof.
  refine (proj1 (replies_ignore_case offline "WHAT Is The Time" "what is the time" _)).
  reflexivity.
Defined.




(** X12.  The rule of the fixed sum changes no reply: a message it
    matches is matched by neither the time nor the date rule, and the
    addition rule, the next in line, answers it with the same words. *)
Theorem fixed_sum_redundant rt message :
  ruleTwoPlusTwo message = true ->
  ruleTime message = false /\ ruleDate message = false /\ rulePair "+" message = true /\
  arithmeticReply "+" "+" (fun a b => numberToString (renderNearest rt) (add a b))
    (lowerOf message) = Some twoPlusTwoReply.
Proof.
  intros H. destruct (fixedSum_spec message H) as [Ht [Hd Hp]].
  split; [assumption|]. split; [assumption|]. split; [assumption|].
  destruct (arithmeticReply_defined "+" "+"
              (fun a b => numberToString (renderNearest rt) (add a b)) _ Hp)
    as [a [b [HF ->]]].
  unfold ruleTwoPlusTwo in H. rewrite wholeIgnoreCase_lower in H.
  apply testWhole_spec, twoPlusTwo_pair in H.
  destruct (FirstPair_unique "+" _ _ _ _ _ eq_refl eq_refl HF H) as [-> ->].
  reflexivity.
Qed.

Lemma fixed_sum_redundant_witness :
  arithmeticReply "+" "+" (fun a b => numberToString (renderNearest offline) (add a b))
    (lowerOf "What is 2 + 2 =") = Some twoPlusTwoReply.
Proof.
  refine (proj2 (proj2 (proj2 (fixed_sum_redundant offline "What is 2 + 2 =" _)))).
  vm_compute. reflexivity.
Defined.

(** The rules on examples. *)
Example rule_examples rt :
  tryRules rt "what time is 1 + 2" = Some (Some (timeReply rt)) /\
  tryRules rt "What's the date and TIME?" = Some (Some (timeReply rt)) /\
  tryRules rt "is today a good date" = Some (Some (dateReply rt)) /\
  tryRules rt "Who are you?" = Some (Some whoReply) /\
  tryRules rt "who are you and what time is it" = Some (Some (timeReply rt)) /\
  tryRules rt "how does this work" = Some (Some howReply) /\
  tryRules rt "no thanks" = Some (Some thankReply) /\
  tryRules rt "thanks for 2 - 1" = Some (Some "2 - 1 = 1").
Proof. repeat split; vm_compute; reflexivity. Qed.

End RuleProperties.

Module RangeFacts.
Import Text Regex Number PairDefs TextFacts NumberFacts.
Local Open Scope Z_scope.




End RangeFacts.

Module RangeProperties.
Import Text Regex Number Json PairDefs PhraseDefs Server SessionDefs RuleDefs RangeDefs.
Import RegexFacts PatternFacts PairFacts TextFacts SessionFacts RuleFacts NumberFacts.
Import ArithmeticFacts RangeFacts Examples.
Local Open Scope Z_scope.




End RangeProperties.

Module RetrievalProperties.
Import Text Json Arrays Server RetrievalDefs ProviderFacts.
Local Open Scope Z_scope.

(** X14.  [retrieveRelevantContext] raises no error, whatever the query
    and the count asked for: it returns answers of entries of the
    knowledge base, no more than the count when that is not negative,
    and, for a negative count, no more than the entries left when that
    many are taken off the end of the ranking. *)
Theorem retrieval_total rt kb query topK :
  exists answers,
    retrieveRelevantContext rt kb query topK = Some answers /\
    Forall (fun a => exists entry, In entry kb /\ a = answer entry) answers /\
    (length answers <= length kb)%nat /\
    (0 <= topK -> (length answers <= Z.to_nat topK)%nat) /\
    (topK < 0 -> (length answers <= length kb - Z.to_nat (- topK))%nat).
Proof.
  destruct (retrieve_bounds rt kb query topK) as [answers [E [Hl Hf]]].
  exists answers. split; [assumption|]. split; [assumption|].
  unfold position in Hl. destruct (topK <? 0) eqn:Es.
  - apply Z.ltb_lt in Es. repeat split; lia.
  - apply Z.ltb_ge in Es. repeat split; lia.
Qed.

End RetrievalProperties.

Module RaceFacts.
Import Text Regex Json Arrays PairDefs Server SessionDefs Interleaved RaceDefs.
Import TextFacts SessionFacts InterleavedFacts.

Lemma start_accepted cfg rt req m message :
  accepted req message ->
  let fresh := match table m !! sessionIdOf req with
               | Some ref => (ref, m)
               | None => allocate [] m
               end in
  let pushed := push fresh.1 (userTurn message) fresh.2 in
  let out := generate cfg rt message (contents pushed fresh.1) in
  start cfg rt req m =
    (inr {| sessionId := sessionIdOf req; history := fresh.1;
            botResponse := out.2; requests := out.1 |}, pushed).
Proof.
  intros Hacc fresh pushed out. unfold start. rewrite (validate_accepted _ _ Hacc).
  fold fresh. destruct fresh as [ref m'] eqn:Ef. cbn [fst snd] in *.
  change {| role := user; content := Some message |} with (userTurn message).
  fold pushed. fold out. now destruct out.
Qed.

Lemma resume_small p m :
  (history p < length (arrays m))%nat ->
  (length (contents m (history p)) < 20)%nat ->
  resume p m =
    ({| status := 200; payload := ChatReply (botResponse p) |},
     store (sessionId p) (history p) (push (history p) (assistantTurn (botResponse p)) m)).
Proof.
  intros Hr Hl. unfold resume.
  change {| role := assistant; content := botResponse p |} with (assistantTurn (botResponse p)).
  rewrite contents_push_eq by assumption. rewrite length_app. simpl length.
  replace (historyLimit <? length (contents m (history p)) + 1)%nat with false; [reflexivity|].
  symmetry. apply Nat.ltb_ge. unfold historyLimit. lia.
Qed.

Lemma view_store_eq sid ref m : view (store sid ref m) !! sid = Some (contents m ref).
Proof. now rewrite view_store, lookup_insert_eq. Qed.

Lemma wellFormed_noSession : wellFormed noSession.
Proof.
  split.
  - intros sid ref H. cbn in H. rewrite lookup_empty in H. discriminate.
  - intros sid1 sid2 ref H. cbn in H. rewrite lookup_empty in H. discriminate.
Qed.

Lemma wellFormed_oneSession h : wellFormed (oneSession h).
Proof.
  split.
  - intros sid ref H. cbn in H. apply lookup_singleton_Some in H as [_ <-]. simpl. lia.
  - intros sid1 sid2 ref H1 H2. cbn in H1, H2.
    apply lookup_singleton_Some in H1 as [<- _]. now apply lookup_singleton_Some in H2 as [<- _].
Qed.

End RaceFacts.

Module RaceProperties.
Import Text Regex Json Arrays PairDefs Server SessionDefs Interleaved RaceDefs.
Import TextFacts SessionFacts InterleavedFacts RaceFacts Examples.

(** X18.  A lost update.  Two requests that call the provider, for a
    session that has no history yet, the second one starting while the
    first one waits: each gets an
    array of its own, the first one stores its exchange, and the second
    one, when it resumes, stores its own in its place.  The first
    exchange is in no history any more, and the second reply was made
    without it. *)
Theorem lost_update cfg rt1 rt2 req1 req2 m message1 message2 :
  accepted req1 message1 -> accepted req2 message2 ->
  waits cfg rt1 message1 -> waits cfg rt2 message2 ->
  sessionIdOf req2 = sessionIdOf req1 ->
  table m !! sessionIdOf req1 = None ->
  exists p1 p2 m1 m2,
    start cfg rt1 req1 m = (inr p1, m1) /\
    start cfg rt2 req2 m1 = (inr p2, m2) /\
    botResponse p1 = (generate cfg rt1 message1 [userTurn message1]).2 /\
    botResponse p2 = (generate cfg rt2 message2 [userTurn message2]).2 /\
    view (resume p1 m2).2 !! sessionIdOf req1 =
      Some [userTurn message1; assistantTurn (botResponse p1)] /\
    view (resume p2 (resume p1 m2).2).2 !! sessionIdOf req1 =
      Some [userTurn message2; assistantTurn (botResponse p2)].
Proof.
  intros Hacc1 Hacc2 _ _ Hsid Hnone.
  set (n := length (arrays m)).
  pose proof (start_accepted cfg rt1 req1 m message1 Hacc1) as E1.
  rewrite Hnone in E1. cbn [allocate fst snd] in E1. fold n in E1.
  set (m0 := {| arrays := arrays m ++ [[]]; table := table m |}) in *.
  assert (Hm0 : m0 = (allocate [] m).2) by reflexivity.
  assert (Hc1 : contents (push n (userTurn message1) m0) n = [userTurn message1]).
  { rewrite contents_push_eq by (unfold m0; cbn [arrays]; rewrite length_app; simpl; lia).
    rewrite Hm0. now rewrite contents_allocate_new. }
  rewrite Hc1 in E1.
  set (m1 := push n (userTurn message1) m0) in *.
  assert (Hl1 : length (arrays m1) = S n).
  { unfold m1. rewrite length_push. unfold m0. cbn [arrays]. rewrite length_app. simpl. lia. }
  pose proof (start_accepted cfg rt2 req2 m1 message2 Hacc2) as E2.
  rewrite Hsid in E2.
  change (table m1) with (table m) in E2. rewrite Hnone in E2.
  cbn [allocate fst snd] in E2. rewrite Hl1 in E2.
  set (m1' := {| arrays := arrays m1 ++ [[]]; table := table m1 |}) in *.
  assert (Hm1' : m1' = (allocate [] m1).2) by reflexivity.
  assert (Hl1' : length (arrays m1') = S (S n)).
  { unfold m1'. cbn [arrays]. rewrite length_app, Hl1. simpl. lia. }
  assert (Hc2 : contents (push (S n) (userTurn message2) m1') (S n) = [userTurn message2]).
  { rewrite contents_push_eq by lia.
    rewrite Hm1', <- Hl1. now rewrite contents_allocate_new. }
  rewrite Hc2 in E2.
  set (m2 := push (S n) (userTurn message2) m1') in *.
  assert (Hl2 : length (arrays m2) = S (S n)) by (unfold m2; now rewrite length_push).
  assert (Hc21 : contents m2 n = [userTurn message1]).
  { unfold m2. rewrite contents_push_ne by lia. rewrite Hm1'.
    rewrite contents_allocate_old by lia. exact Hc1. }
  set (out1 := generate cfg rt1 message1 [userTurn message1]) in *.
  set (out2 := generate cfg rt2 message2 [userTurn message2]) in *.
  set (p1 := {| sessionId := sessionIdOf req1; history := n;
                botResponse := out1.2; requests := out1.1 |}) in *.
  set (p2 := {| sessionId := sessionIdOf req1; history := S n;
                botResponse := out2.2; requests := out2.1 |}) in *.
  exists p1, p2, m1, m2.
  split; [exact E1|]. split; [exact E2|]. split; [reflexivity|]. split; [reflexivity|].
  assert (R1 : resume p1 m2 =
               ({| status := 200; payload := ChatReply (botResponse p1) |},
                store (sessionId p1) (history p1)
                  (push (history p1) (assistantTurn (botResponse p1)) m2))).
  { apply resume_small; cbn [history p1]; [lia|]. rewrite Hc21. simpl. lia. }
  rewrite R1. cbn [snd]. cbn [sessionId history botResponse p1].
  set (m3 := store (sessionIdOf req1) n (push n (assistantTurn out1.2) m2)).
  split.
  - unfold m3. rewrite view_store_eq. rewrite contents_push_eq by lia. now rewrite Hc21.
  - assert (Hl3 : length (arrays m3) = S (S n)).
    { unfold m3, store. cbn [arrays]. now rewrite length_push. }
    assert (Hc3 : contents m3 (S n) = [userTurn message2]).
    { unfold m3. change (contents (store ?s ?r ?x) ?k) with (contents x k).
      rewrite contents_push_ne by lia. unfold m2. rewrite contents_push_eq by lia.
      rewrite Hm1', <- Hl1. now rewrite contents_allocate_new. }
    assert (R2 : resume p2 m3 =
                 ({| status := 200; payload := ChatReply (botResponse p2) |},
                  store (sessionId p2) (history p2)
                    (push (history p2) (assistantTurn (botResponse p2)) m3))).
    { apply resume_small; cbn [history p2]; [lia|]. rewrite Hc3. simpl. lia. }
    rewrite R2. cbn [snd]. cbn [sessionId history botResponse p2].
    rewrite view_store_eq. rewrite contents_push_eq by lia. now rewrite Hc3.
Qed.

Lemma lost_update_witness :
  exists p1 p2 m1 m2,
    start withKey offline (say "zzz") noSession = (inr p1, m1) /\
    start withKey offline (say "qqq") m1 = (inr p2, m2) /\
    botResponse p1 = (generate withKey offline "zzz" [userTurn "zzz"]).2 /\
    botResponse p2 = (generate withKey offline "qqq" [userTurn "qqq"]).2 /\
    view (resume p1 m2).2 !! sessionIdOf (say "zzz") =
      Some [userTurn "zzz"; assistantTurn (botResponse p1)] /\
    view (resume p2 (resume p1 m2).2).2 !! sessionIdOf (say "zzz") =
      Some [userTurn "qqq"; assistantTurn (botResponse p2)].
Proof.
  apply (lost_update withKey offline offline (say "zzz") (say "qqq") noSession "zzz" "qqq").
  - split; [reflexivity|]. vm_compute. discriminate.
  - split; [reflexivity|]. vm_compute. discriminate.
  - split; [reflexivity|]. vm_compute. reflexivity.
  - split; [reflexivity|]. vm_compute. reflexivity.
  - reflexivity.
  - reflexivity.
Defined.

(** X19.  Two requests that call the provider, for a session that has a
    history, the second one starting while the first one waits: both push into the same array,
    so that the two messages come before the two replies, the second
    reply is made from a history that holds the first message without
    its reply, and the roles no longer alternate. *)
Theorem interleaved_exchanges cfg rt1 rt2 req1 req2 m message1 message2 ref :
  wellFormed m -> accepted req1 message1 -> accepted req2 message2 ->
  waits cfg rt1 message1 -> waits cfg rt2 message2 ->
  sessionIdOf req2 = sessionIdOf req1 ->
  table m !! sessionIdOf req1 = Some ref ->
  (length (contents m ref) + 4 <= 20)%nat ->
  let old := contents m ref in
  exists p1 p2 m1 m2,
    start cfg rt1 req1 m = (inr p1, m1) /\
    start cfg rt2 req2 m1 = (inr p2, m2) /\
    botResponse p1 = (generate cfg rt1 message1 (old ++ [userTurn message1])).2 /\
    botResponse p2 =
      (generate cfg rt2 message2 (old ++ [userTurn message1; userTurn message2])).2 /\
    view (resume p2 (resume p1 m2).2).2 !! sessionIdOf req1 =
      Some (old ++ [userTurn message1; userTurn message2;
                    assistantTurn (botResponse p1); assistantTurn (botResponse p2)]).
Proof.
  intros [Hv _] Hacc1 Hacc2 _ _ Hsid Href Hlen old.
  pose proof (Hv _ _ Href) as Hr.
  pose proof (start_accepted cfg rt1 req1 m message1 Hacc1) as E1.
  rewrite Href in E1. cbn [fst snd] in E1.
  rewrite contents_push_eq in E1 by assumption. fold old in E1.
  set (m1 := push ref (userTurn message1) m) in *.
  assert (Hl1 : length (arrays m1) = length (arrays m)) by apply length_push.
  assert (Hc1 : contents m1 ref = old ++ [userTurn message1]) by now apply contents_push_eq.
  pose proof (start_accepted cfg rt2 req2 m1 message2 Hacc2) as E2.
  rewrite Hsid in E2. change (table m1) with (table m) in E2. rewrite Href in E2.
  cbn [fst snd] in E2. rewrite contents_push_eq in E2 by lia.
  rewrite Hc1, <- app_assoc in E2. cbn [app] in E2.
  set (m2 := push ref (userTurn message2) m1) in *.
  assert (Hl2 : length (arrays m2) = length (arrays m)) by (unfold m2; now rewrite length_push).
  assert (Hc2 : contents m2 ref = old ++ [userTurn message1; userTurn message2]).
  { unfold m2. rewrite contents_push_eq by lia. rewrite Hc1, <- app_assoc. reflexivity. }
  set (out1 := generate cfg rt1 message1 (old ++ [userTurn message1])) in *.
  set (out2 := generate cfg rt2 message2 (old ++ [userTurn message1; userTurn message2])) in *.
  set (p1 := {| sessionId := sessionIdOf req1; history := ref;
                botResponse := out1.2; requests := out1.1 |}) in *.
  set (p2 := {| sessionId := sessionIdOf req1; history := ref;
                botResponse := out2.2; requests := out2.1 |}) in *.
  exists p1, p2, m1, m2.
  split; [exact E1|]. split; [exact E2|]. split; [reflexivity|]. split; [reflexivity|].
  assert (R1 : resume p1 m2 =
               ({| status := 200; payload := ChatReply (botResponse p1) |},
                store (sessionId p1) (history p1)
                  (push (history p1) (assistantTurn (botResponse p1)) m2))).
  { apply resume_small; cbn [history p1]; [lia|]. rewrite Hc2, length_app. simpl. unfold old. lia. }
  rewrite R1. cbn [snd]. cbn [sessionId history botResponse p1].
  set (m3 := store (sessionIdOf req1) ref (push ref (assistantTurn out1.2) m2)).
  assert (Hl3 : length (arrays m3) = length (arrays m)).
  { unfold m3, store. cbn [arrays]. now rewrite length_push. }
  assert (Hc3 : contents m3 ref =
                old ++ [userTurn message1; userTurn message2; assistantTurn out1.2]).
  { unfold m3. change (contents (store ?s ?r ?x) ?k) with (contents x k).
    rewrite contents_push_eq by lia. rewrite Hc2, <- app_assoc. reflexivity. }
  assert (R2 : resume p2 m3 =
               ({| status := 200; payload := ChatReply (botResponse p2) |},
                store (sessionId p2) (history p2)
                  (push (history p2) (assistantTurn (botResponse p2)) m3))).
  { apply resume_small; cbn [history p2]; [lia|]. rewrite Hc3, length_app. simpl. unfold old. lia. }
  rewrite R2. cbn [snd]. cbn [sessionId history botResponse p2].
  rewrite view_store_eq. rewrite contents_push_eq by lia. rewrite Hc3, <- app_assoc. reflexivity.
Qed.

Lemma interleaved_exchanges_witness :
  let old := [userTurn "hello"; assistantTurn (Some greetingReply)] in
  exists p1 p2 m1 m2,
    start withKey offline (say "zzz") (oneSession old) = (inr p1, m1) /\
    start withKey offline (say "qqq") m1 = (inr p2, m2) /\
    botResponse p1 = (generate withKey offline "zzz" (old ++ [userTurn "zzz"])).2 /\
    botResponse p2 =
      (generate withKey offline "qqq" (old ++ [userTurn "zzz"; userTurn "qqq"])).2 /\
    view (resume p2 (resume p1 m2).2).2 !! sessionIdOf (say "zzz") =
      Some (old ++ [userTurn "zzz"; userTurn "qqq";
                    assistantTurn (botResponse p1); assistantTurn (botResponse p2)]).
Proof.
  intros old.
  apply (interleaved_exchanges withKey offline offline (say "zzz") (say "qqq")
           (oneSession old) "zzz" "qqq" 0%nat).
  - apply wellFormed_oneSession.
  - split; [reflexivity|]. vm_compute. discriminate.
  - split; [reflexivity|]. vm_compute. discriminate.
  - split; [reflexivity|]. vm_compute. reflexivity.
  - split; [reflexivity|]. vm_compute. reflexivity.
  - reflexivity.
  - reflexivity.
  - simpl. lia.
Defined.

(** The handler on the arrays, on a memory without sessions. *)
Lemma handle_refines_witness :
  view (handle noKey offline (say "hello") noSession).2 =
    conversationHistory (chat noKey offline (say "hello") (view noSession)).
Proof.
  exact (proj1 (proj2 (handle_refines noKey offline (say "hello") noSession
                         wellFormed_noSession))).
Defined.

(** A history of 20 turns is read as one of 21 while a request waits. *)
Lemma start_visible_witness :
  view (start withKey offline (say "zzz") (oneSession full)).2 !! sessionIdOf (say "zzz") =
    Some (contents (oneSession full) 0 ++ [{| role := user; content := Some "zzz" |}]) /\
  length (contents (oneSession full) 0 ++ [{| role := user; content := Some "zzz" |}]) = 21%nat.
Proof.
  split; [|reflexivity].
  apply (start_visible withKey offline (say "zzz") (oneSession full) "zzz" 0%nat).
  - apply wellFormed_oneSession.
  - reflexivity.
  - reflexivity.
Defined.

End RaceProperties.

Module EndpointProperties.
Import Text Json Server Endpoints Startup EndpointDefs Examples.
Import RetrievalDefs ProviderFacts Arrays.
Local Open Scope Z_scope.

(** X20.  [GET /api/check-api-key] reports the key as valid exactly when
    a key that is not the empty string is configured and the provider
    answers the request for its models with a success status, whatever
    the body; without a key the provider is not contacted, and with one
    it is contacted once, with the key as bearer token. *)
Theorem key_check_valid fetchModels errorMessage cfg :
  let out := checkApiKey fetchModels errorMessage cfg in
  (valid out.2 = true <->
   exists key code body,
     env_GROQ_API_KEY cfg = Some key /\ key <> "" /\
     fetchModels ("Bearer " +:+ key) = Responded code body /\ ok code = true) /\
  (GROQ_API_KEY cfg = false ->
   out = ([], {| valid := false; message := Some (JStr "No API key provided") |})) /\
  (forall key, env_GROQ_API_KEY cfg = Some key -> key <> "" -> out.1 = ["Bearer " +:+ key]).
Proof.
  intros out. subst out. unfold checkApiKey, GROQ_API_KEY, nonEmpty.
  destruct (env_GROQ_API_KEY cfg) as [key|] eqn:Ek.
  - destruct (String.eqb_spec key "") as [->|Hne].
    + cbn. split; [|split; [reflexivity|congruence]]. split; [discriminate|].
      intros [key [code [body [[= <-] [Hk _]]]]]. congruence.
    + cbn [negb from_option id fst snd].
      split; [|split; [discriminate|]].
      * split.
        -- destruct (fetchModels ("Bearer " +:+ key)) as [|code body] eqn:Ef;
             [cbn; discriminate|].
           destruct (ok code) eqn:Eo.
           ++ intros _. exists key, code, body. auto.
           ++ destruct body as [|error]; [cbn; discriminate|].
              destruct (refusalMessage error); cbn; discriminate.
        -- intros [key' [code [body [[= <-] [_ [-> ->]]]]]]. reflexivity.
      * intros key' [= <-] _. reflexivity.
  - cbn. split; [|split; [reflexivity|discriminate]].
    split; [discriminate|]. intros [key [code [body [H _]]]]. discriminate.
Qed.

Example key_check_examples :
  let check result := checkApiKey (fun _ => result) (fun _ => "request failed") withKey in
  checkApiKey (fun _ => Rejected) (fun _ => "request failed") noKey =
    ([], {| valid := false; message := Some (JStr "No API key provided") |}) /\
  check (Responded 200 Unparsable) =
    (["Bearer gsk_test"], {| valid := true; message := Some (JStr "API key is valid") |}) /\
  check (Responded 401 (Parsed invalidKeyBody)) =
    (["Bearer gsk_test"], {| valid := false; message := Some (JStr "Invalid API Key") |}) /\
  check (Responded 403 (Parsed (JObj []))) =
    (["Bearer gsk_test"], {| valid := false; message := Some (JStr "Invalid API key") |}) /\
  check (Responded 500 (Parsed JNull)) =
    (["Bearer gsk_test"], {| valid := false; message := Some (JStr "request failed") |}) /\
  check Rejected =
    (["Bearer gsk_test"], {| valid := false; message := Some (JStr "request failed") |}).
Proof. repeat split; reflexivity. Qed.

(** X21.  When the provider refuses the key with a JSON body that is not
    [null], the message of the answer is never falsy: it is the message
    of the provider's error when that is not falsy, and [Invalid API key]
    otherwise, as for a body without an error, or one that is not an
    object. *)
Theorem key_check_refusal fetchModels errorMessage cfg key code error :
  env_GROQ_API_KEY cfg = Some key -> key <> "" ->
  fetchModels ("Bearer " +:+ key) = Responded code (Parsed error) -> ok code = false ->
  error <> JNull ->
  let answer := (checkApiKey fetchModels errorMessage cfg).2 in
  valid answer = false /\ truthy (message answer) = true /\
  (truthy (providerMessage error) = true -> message answer = providerMessage error) /\
  (truthy (providerMessage error) = false -> message answer = Some (JStr "Invalid API key")).
Proof.
  intros Hk Hne Hf Hok Hnull answer. subst answer.
  unfold checkApiKey, GROQ_API_KEY, nonEmpty. rewrite Hk.
  destruct (String.eqb_spec key ""); [contradiction|]. cbn [negb snd from_option id].
  rewrite Hf, Hok.
  assert (E : refusalMessage error =
              inr (if truthy (providerMessage error) then providerMessage error
                   else Some (JStr "Invalid API key"))).
  { unfold refusalMessage, providerMessage. destruct error; [contradiction|reflexivity..]. }
  rewrite E. cbn [valid message].
  destruct (truthy (providerMessage error)) eqn:Et; repeat split; auto; discriminate.
Qed.

Lemma key_check_refusal_witness :
  let answer := (checkApiKey (fun _ => Responded 401 (Parsed invalidKeyBody))
                   (fun _ => "") withKey).2 in
  valid answer = false /\ message answer = Some (JStr "Invalid API Key").
Proof.
  intros answer.
  destruct (key_check_refusal (fun _ => Responded 401 (Parsed invalidKeyBody)) (fun _ => "")
              withKey "gsk_test" 401 invalidKeyBody eq_refl) as [Hv [_ [Hm _]]];
    try reflexivity; try discriminate.
  split; [exact Hv|]. apply Hm. reflexivity.
Defined.

(** X22.  The address printed at start is [127.0.0.1] when no interface
    has an IPv4 address that is not internal; otherwise it is the first
    such address of the last interface that has one, not of the first:
    the [break] ends the loop over the addresses of one interface only. *)
Theorem local_address nets :
  ((forall entry, In entry nets -> List.find external entry.2 = None) ->
   localIp nets = "127.0.0.1") /\
  (forall earlier name infos later net,
     nets = earlier ++ (name, infos) :: later ->
     List.find external infos = Some net ->
     (forall entry, In entry later -> List.find external entry.2 = None) ->
     localIp nets = address net).
Proof.
  unfold localIp.
  assert (Hnone : forall l start,
             (forall entry, In entry l -> List.find external entry.2 = None) ->
             fold_left
               (fun localIp (entry : string * list NetworkInterfaceInfo) =>
                  match List.find external entry.2 with
                  | Some net => address net
                  | None => localIp
                  end) l start = start).
  { induction l as [|entry l IH]; intros start H; [reflexivity|].
    cbn [fold_left]. rewrite (H entry) by now left.
    apply IH. intros e He. apply H. now right. }
  split.
  - apply Hnone.
  - intros earlier name infos later net -> Hf Hlater.
    rewrite fold_left_app. cbn [fold_left snd]. rewrite Hf. now apply Hnone.
Qed.

Lemma local_address_witness :
  localIp [("lo", [loopback]); ("eth0", [linkLocal6; wired]); ("wlan0", [wireless]);
           ("docker0", [linkLocal6])] = "10.0.0.7".
Proof.
  refine (proj2 (local_address _) [("lo", [loopback]); ("eth0", [linkLocal6; wired])]
            "wlan0" [wireless] [("docker0", [linkLocal6])] wireless eq_refl eq_refl _).
  intros entry [<-|[]]. reflexivity.
Defined.

End EndpointProperties.

Module StoreProperties.
Import Text Regex Json Arrays PairDefs Server SessionDefs HandlerDefs StoreDefs.
Import TextFacts SessionFacts HandlerFacts Examples.

(** X23.  The store holds nothing but what the handler has answered:
    every turn of every history is a user turn with a message that has
    more in it than white space, or an assistant turn; a system turn is
    never stored. *)
Theorem stored_turns cfg store :
  reachable cfg store ->
  forall sid h, store !! sid = Some h -> Forall storedTurn h.
Proof.
  induction 1 as [|rt req store Hreach IH]; intros sid h Hlook.
  - rewrite lookup_empty in Hlook. discriminate.
  - destruct (accepted_dec cfg rt req store) as [[message Hacc]|[Hsame _]].
    + rewrite (chat_accepted _ _ _ _ _ Hacc) in Hlook. cbn [conversationHistory] in Hlook.
      destruct (decide (sessionIdOf req = sid)) as [Heq|Hne].
      * rewrite Heq, lookup_insert_eq in Hlook. injection Hlook as <-.
        unfold mostRecent. apply Forall_drop. apply Forall_app. split.
        -- destruct (store !! sid) as [old|] eqn:E; [eapply IH; eauto|constructor].
        -- constructor; [|constructor; [now right|constructor]].
           left. split; [reflexivity|]. exists message. split; [reflexivity|apply Hacc].
      * rewrite lookup_insert_ne in Hlook by assumption. eauto.
    + rewrite Hsame in Hlook. eauto.
Qed.

Lemma stored_turns_witness :
  Forall storedTurn [userTurn "hello"; assistantTurn (Some greetingReply)].
Proof.
  apply (stored_turns noKey (conversationHistory (chat noKey offline (say "hello") ∅))
           (reach_chat noKey offline (say "hello") ∅ (reach_start noKey)) "default").
  vm_compute. reflexivity.
Defined.

(** X24.  The requests that name no session share one: after an answered
    request without the header [x-session-id], or with an empty one, any
    other such request, and any request for the session [default], reads
    a history that ends with the message and the reply of the former. *)
Theorem anonymous_sessions_shared cfg rt req store message reader :
  accepted req message -> anonymous req ->
  anonymous reader \/ header_session_id reader = Some "default" ->
  exists reply kept,
    payload (response (chat cfg rt req store)) = ChatReply reply /\
    getHistory reader (conversationHistory (chat cfg rt req store)) =
      kept ++ [userTurn message; assistantTurn reply].
Proof.
  intros Hacc Hreq Hreader.
  assert (H1 : sessionIdOf req = "default").
  { unfold sessionIdOf. destruct Hreq as [->| ->]; reflexivity. }
  assert (H2 : sessionIdOf reader = "default").
  { unfold sessionIdOf. destruct Hreader as [[->| ->]| ->]; reflexivity. }
  rewrite (chat_accepted _ _ _ _ _ Hacc). cbn [response payload conversationHistory].
  unfold getHistory. rewrite H1, H2, lookup_insert_eq. cbn [default].
  set (old := default [] (store !! "default")).
  set (reply := (generate cfg rt message (old ++ [userTurn message])).2).
  exists reply, (drop (length old + 2 - 20) old). split; [reflexivity|].
  now rewrite (drop_mostRecent old [userTurn message; assistantTurn reply] 20) by (simpl; lia).
Qed.

Lemma anonymous_sessions_shared_witness :
  exists reply kept,
    payload (response (chat noKey offline (say "hello") ∅)) = ChatReply reply /\
    getHistory {| body_message := None; header_session_id := Some "" |}
      (conversationHistory (chat noKey offline (say "hello") ∅)) =
      kept ++ [userTurn "hello"; assistantTurn reply].
Proof.
  apply (anonymous_sessions_shared noKey offline (say "hello") ∅ "hello").
  - split; [reflexivity|]. vm_compute. discriminate.
  - now left.
  - left. now right.
Defined.

End StoreProperties.
